(** * CUT: indexed binary heap and adjacency lists

    A shallow embedding of [cut::MinHeap] (src/algo/minheap.cpp),
    [cut::AdjacencyList] (src/algo/adjlist/adjlist.cpp) and
    [cut::CompatAdjacencyList] (src/algo/adjlist/cadjlist.cpp), together
    with the properties their documentation states.

    Conventions of the embedding.
    - [std::vector<T>] is a [list T]; [v[i]] is stdpp's lookup and
      [<[i:=x]>] its in-place update.  [operator[]] is unchecked in C++:
      the model reads the default inhabitant out of range, which the
      representation invariants below exclude.
    - [size_t] is [nat], sizes being bounded by the memory of the machine;
      [int] is [Z].  Where a sum of [int]s can leave the range of [int],
      in the constructors from connections, its wrap-around is written
      out ([wrap_int]); everywhere else the checks that precede the
      arithmetic keep it in range.
    - [double] keys are exact numbers, modelled as [Z]: a key is only
      compared, negated, and shifted by an increment.
    - An exception is a value of [Result]; an object outlives the
      exception a method throws, so mutating methods return the state
      next to the result. *)

From Stdlib Require Import ZArith Lia.
From stdpp Require Import base list sorting.
From Equations Require Import Equations.

(** ** Exceptions (include/cut/excepts) *)

Inductive Error : Type :=
| OutOfBoundError
| AssertionError.

Inductive Result (A : Type) : Type :=
| Ok (a : A)
| Throw (e : Error).
Arguments Ok {A} a.
Arguments Throw {A} e.

(** [std::swap(v[i], v[j])]. *)
Definition swap {A : Type} `{Inhabited A} (l : list A) (i j : nat) : list A :=
  <[j := l !!! i]> (<[i := l !!! j]> l).

(** [int], 32 bits in two's complement.  C++ leaves a signed sum that
    overflows undefined; the compiled code computes it modulo [2^32],
    which [wrap_int] writes out. *)
Definition INT_MAX : Z := 2 ^ 31 - 1.

Definition wrap_int (z : Z) : Z := (z + 2 ^ 31) mod 2 ^ 32 - 2 ^ 31.

(** The checking macros of boundsexcept.hpp and assertexcept.hpp. *)
Definition CUTCheckLess (x ub : Z) : Result unit :=
  if (ub <=? x)%Z then Throw OutOfBoundError else Ok tt.
Definition CUTCheckGreater (x lb : Z) : Result unit :=
  if (x <=? lb)%Z then Throw OutOfBoundError else Ok tt.
Definition CUTCheckGEQ (x lb : Z) : Result unit :=
  if (x <? lb)%Z then Throw OutOfBoundError else Ok tt.
Definition CUTAssert (expr : bool) : Result unit :=
  if expr then Ok tt else Throw AssertionError.

(** Sequencing of code that may throw. *)
Definition res_bind {A B : Type} (r : Result A) (k : A -> Result B) : Result B :=
  match r with
  | Ok a => k a
  | Throw e => Throw e
  end.

(** A member function that mutates its object of type [S]: the object is
    still there after a throw, in the state the throw left it in. *)
Definition M (S A : Type) : Type := S -> Result A * S.

Definition st_ret {S A : Type} (a : A) : M S A := fun s => (Ok a, s).

Definition st_bind {S A B : Type} (m : M S A) (k : A -> M S B) : M S B :=
  fun s =>
    match m s with
    | (Ok a, s') => k a s'
    | (Throw e, s') => (Throw e, s')
    end.

(** A computation that does not touch the object. *)
Definition check {S A : Type} (r : Result A) : M S A := fun s => (r, s).

(** [try { m } catch (const std::exception& e) { }]: the exceptions of
    the library derive from [std::runtime_error]. *)
Definition try_catch {S : Type} (m : M S unit) : M S unit :=
  fun s => (Ok tt, (m s).2).

#[export] Instance Result_bind : MBind Result :=
  fun A B k r => res_bind r k.
#[export] Instance Result_ret : MRet Result := @Ok.
#[export] Instance M_bind {S : Type} : MBind (M S) :=
  fun A B k m => st_bind m k.
#[export] Instance M_ret {S : Type} : MRet (M S) := @st_ret S.

(** [for (int i = lo; i < hi; ++i) body] *)
Fixpoint for_loop {S : Type} (n : nat) (i : Z) (body : Z -> M S unit) : M S unit :=
  match n with
  | O => st_ret tt
  | S n' => body i ;; for_loop n' (i + 1)%Z body
  end.

Definition for_range {S : Type} (lo hi : Z) (body : Z -> M S unit) : M S unit :=
  for_loop (Z.to_nat (hi - lo)) lo body.

(** [for (const T& c : v) body] *)
Fixpoint for_each {S T : Type} (v : list T) (body : T -> M S unit) : M S unit :=
  match v with
  | [] => st_ret tt
  | c :: rest => body c ;; for_each rest body
  end.

(** [std::find(v.begin(), v.end(), x)]: the first position holding [x];
    [None] is [v.end()]. *)
Fixpoint find (v : list Z) (x : Z) : option nat :=
  match v with
  | [] => None
  | y :: rest => if (y =? x)%Z then Some 0 else S <$> find rest x
  end.

Definition is_end (pos : option nat) : bool :=
  match pos with
  | None => true
  | Some _ => false
  end.

(** [v.emplace(v.begin() + i, x)] *)
Definition emplace {A : Type} (v : list A) (i : nat) (x : A) : list A :=
  take i v ++ x :: drop i v.

(** ** cut::MinHeap *)

Module MinHeap.

Record t : Type := mk {
  m_Nodes : list (Z * nat);
  m_Perm : list nat;
  m_Sign : Z
}.

Definition Size (h : t) : nat := length (m_Nodes h).

(** [m_Nodes[v].first] and [m_Nodes[v].second]. *)
Definition key_at (h : t) (v : nat) : Z := (m_Nodes h !!! v).1.
Definition elem_at (h : t) (v : nat) : nat := (m_Nodes h !!! v).2.

(** [std::pair<double, size_t> FindMin() const] *)
Definition FindMin (h : t) : Result (Z * nat) :=
  CUTCheckGreater (Z.of_nat (Size h)) 0 ;;
  Ok ((m_Sign h * key_at h 0)%Z, elem_at h 0).

(** The two swaps of the sift loops: the nodes at positions [a] and [b],
    then the permutation entries of the element ids now stored there. *)
Definition swap_nodes (h : t) (a b : nat) : t :=
  let nodes := swap (m_Nodes h) a b in
  {| m_Nodes := nodes;
     m_Perm := swap (m_Perm h) (nodes !!! a).2 (nodes !!! b).2;
     m_Sign := m_Sign h |}.

(** The loop of [MoveUp], from position [v]. *)
Equations MoveUp_loop (h : t) (v : nat) : t by wf v lt :=
  MoveUp_loop h 0 := h;
  MoveUp_loop h (S n) :=
    if (key_at h (Nat.div2 (S n)) <? key_at h (S n))%Z
    then h
    else MoveUp_loop (swap_nodes h (Nat.div2 (S n)) (S n)) (Nat.div2 (S n)).
Next Obligation. intros. exact (Nat.lt_div2 (S n) ltac:(lia)). Qed.

(** [void MoveUp(size_t Element)] *)
Definition MoveUp (h : t) (Element : nat) : t :=
  MoveUp_loop h (m_Perm h !!! Element).

(** The loop of [MoveDown], from position [v].  [while (true)] need not
    exit: [fuel] bounds the number of iterations and [None] says that the
    loop is still running when it is used up. *)
Fixpoint MoveDown_loop (fuel : nat) (h : t) (v : nat) : option t :=
  match fuel with
  | O => None
  | S fuel' =>
      let u := 2 * v in
      if Size h <=? u then Some h
      else
        let u :=
          if (u + 1 <? Size h) && (key_at h (u + 1) <? key_at h u)%Z
          then u + 1 else u in
        if (key_at h v <? key_at h u)%Z then Some h
        else MoveDown_loop fuel' (swap_nodes h v u) u
  end.

(** [void MoveDown(size_t Element)] *)
Definition MoveDown (fuel : nat) (h : t) (Element : nat) : option t :=
  MoveDown_loop fuel h (m_Perm h !!! Element).

(** [double GetKey(size_t Element) const] *)
Definition GetKey (h : t) (Element : nat) : Result Z :=
  CUTCheckLess (Z.of_nat Element) (Z.of_nat (Size h)) ;;
  Ok (m_Sign h * key_at h (m_Perm h !!! Element))%Z.

(** [m_Nodes[v].first += d] *)
Definition add_key (h : t) (v : nat) (d : Z) : t :=
  {| m_Nodes := <[v := ((key_at h v + d)%Z, elem_at h v)]> (m_Nodes h);
     m_Perm := m_Perm h;
     m_Sign := m_Sign h |}.

(** [void DecreaseKey(size_t Element, double Decrement)] *)
Definition DecreaseKey (fuel : nat) (h : t) (Element : nat) (Decrement : Z)
  : option (Result t) :=
  match CUTCheckLess (Z.of_nat Element) (Z.of_nat (Size h)) with
  | Throw e => Some (Throw e)
  | Ok _ =>
      let v := m_Perm h !!! Element in
      let h1 := add_key h v (- (m_Sign h * Decrement))%Z in
      if (0 <? m_Sign h)%Z
      then Some (Ok (MoveUp h1 Element))
      else Ok <$> MoveDown fuel h1 Element
  end.

(** [void IncreaseKey(size_t Element, double Increment)] *)
Definition IncreaseKey (fuel : nat) (h : t) (Element : nat) (Increment : Z)
  : option (Result t) :=
  match CUTCheckLess (Z.of_nat Element) (Z.of_nat (Size h)) with
  | Throw e => Some (Throw e)
  | Ok _ =>
      let v := m_Perm h !!! Element in
      let h1 := add_key h v (m_Sign h * Increment)%Z in
      if (0 <? m_Sign h)%Z
      then Ok <$> MoveDown fuel h1 Element
      else Some (Ok (MoveUp h1 Element))
  end.

(** [void Insert(double Key)] *)
Definition Insert (h : t) (Key : Z) : t :=
  let h1 :=
    {| m_Nodes := m_Nodes h ++ [((m_Sign h * Key)%Z, length (m_Nodes h))];
       m_Perm := m_Perm h ++ [length (m_Nodes h)];
       m_Sign := m_Sign h |} in
  MoveUp h1 (length (m_Nodes h1) - 1).

(** [MinHeap(const std::vector<double>& Keys, bool IsMaxHeap)] *)
Definition ctor (Keys : list Z) (IsMaxHeap : bool) : t :=
  fold_left Insert Keys
    {| m_Nodes := []; m_Perm := []; m_Sign := if IsMaxHeap then (-1)%Z else 1%Z |}.

End MinHeap.

(** ** The adjacency lists (include/cut/algo/adjlist.hpp) *)

(** *** cut::AdjacencyList *)

Module AdjacencyList.

Record t : Type := mk {
  m_Adj : list (list Z);
  m_NConnections : Z
}.

Definition set_Adj (adj : list (list Z)) : M t unit :=
  fun this => (Ok tt, {| m_Adj := adj; m_NConnections := m_NConnections this |}).

Definition set_NConnections (n : Z) : M t unit :=
  fun this => (Ok tt, {| m_Adj := m_Adj this; m_NConnections := n |}).

Definition update_Adj (f : list (list Z) -> list (list Z)) : M t unit :=
  fun this => set_Adj (f (m_Adj this)) this.

(** [AdjacencyList(int N)].  The count is a [nat]: a negative [N] converts
    to a size that [resize] refuses, and no object is built. *)
Definition ctor (N : nat) : t :=
  {| m_Adj := replicate N []; m_NConnections := 0 |}.

Definition NumNodes (this : t) : Z := Z.of_nat (length (m_Adj this)).
Definition NumConnections (this : t) : Z := m_NConnections this.

Definition NumAdjacents (this : t) (i : Z) : Result Z :=
  CUTCheckGEQ i 0 ;;
  CUTCheckLess i (NumNodes this) ;;
  Ok (Z.of_nat (length (m_Adj this !!! Z.to_nat i))).

Definition GetAdjacent (this : t) (i idx : Z) : Result Z :=
  CUTCheckGEQ i 0 ;;
  CUTCheckLess i (NumNodes this) ;;
  CUTCheckGEQ idx 0 ;;
  n ← NumAdjacents this i;
  CUTCheckLess idx n ;;
  Ok ((m_Adj this !!! Z.to_nat i) !!! Z.to_nat idx).

(** [void AddNode()] *)
Definition AddNode : M t unit :=
  fun this => set_Adj (m_Adj this ++ [[]]) this.

(** [void InsertNode(int i)] *)
Definition InsertNode (i : Z) : M t unit :=
  fun this =>
  (check (CUTCheckGEQ i 0) ;;
   check (CUTCheckLess i (NumNodes this)) ;;
   set_Adj (emplace (m_Adj this) (Z.to_nat i) [])) this.

(** [void SwapNodes(int i, int j)] *)
Definition SwapNodes (i j : Z) : M t unit :=
  fun this =>
  (check (CUTCheckGEQ i 0) ;;
   check (CUTCheckLess i (NumNodes this)) ;;
   check (CUTCheckGEQ j 0) ;;
   check (CUTCheckLess j (NumNodes this)) ;;
   set_Adj (swap (m_Adj this) (Z.to_nat i) (Z.to_nat j))) this.

(** [void RemoveNode(int i)] *)
Definition RemoveNode (i : Z) : M t unit :=
  fun this =>
  (check (CUTCheckGEQ i 0) ;;
   check (CUTCheckLess i (NumNodes this)) ;;
   set_Adj (delete (Z.to_nat i) (m_Adj this))) this.

(** [void AddAdjacent(int i, int j)] *)
Definition AddAdjacent (i j : Z) : M t unit :=
  fun this =>
  let row := m_Adj this !!! Z.to_nat i in
  (check (CUTCheckGEQ i 0) ;;
   check (CUTCheckLess i (NumNodes this)) ;;
   check (CUTAssert (is_end (find row j))) ;;
   set_Adj (<[Z.to_nat i := row ++ [j]]> (m_Adj this))) this.

(** [void InsertAdjacent(int i, int j, int idx)] *)
Definition InsertAdjacent (i j idx : Z) : M t unit :=
  fun this =>
  let row := m_Adj this !!! Z.to_nat i in
  (check (CUTCheckGEQ i 0) ;;
   check (CUTCheckLess i (NumNodes this)) ;;
   check (CUTCheckGEQ idx 0) ;;
   check (n ← NumAdjacents this i; CUTCheckLess idx n) ;;
   check (CUTAssert (is_end (find row j))) ;;
   set_Adj (<[Z.to_nat i := emplace row (Z.to_nat idx) j]> (m_Adj this))) this.

(** [void UpdateAdjacent(int i, int j, int idx)] *)
Definition UpdateAdjacent (i j idx : Z) : M t unit :=
  fun this =>
  let row := m_Adj this !!! Z.to_nat i in
  (check (CUTCheckGEQ i 0) ;;
   check (CUTCheckLess i (NumNodes this)) ;;
   check (CUTCheckGEQ idx 0) ;;
   check (n ← NumAdjacents this i; CUTCheckLess idx n) ;;
   if (row !!! Z.to_nat idx =? j)%Z then st_ret tt
   else
     check (CUTAssert (is_end (find row j))) ;;
     set_Adj (<[Z.to_nat i := <[Z.to_nat idx := j]> row]> (m_Adj this))) this.

(** [void ReplaceAdjacent(int i, int j, int k)] *)
Definition ReplaceAdjacent (i j k : Z) : M t unit :=
  fun this =>
  let row := m_Adj this !!! Z.to_nat i in
  (check (CUTCheckGEQ i 0) ;;
   check (CUTCheckLess i (NumNodes this)) ;;
   check (CUTAssert (is_end (find row k))) ;;
   let j_pos := find row j in
   check (CUTAssert (negb (is_end j_pos))) ;;
   match j_pos with
   | Some pos => set_Adj (<[Z.to_nat i := <[pos := k]> row]> (m_Adj this))
   | None => st_ret tt
   end) this.

(** [void RemoveAdjacent(int i, int idx)] *)
Definition RemoveAdjacent (i idx : Z) : M t unit :=
  fun this =>
  let row := m_Adj this !!! Z.to_nat i in
  (check (CUTCheckGEQ i 0) ;;
   check (CUTCheckLess i (NumNodes this)) ;;
   check (CUTCheckGEQ idx 0) ;;
   check (n ← NumAdjacents this i; CUTCheckLess idx n) ;;
   set_Adj (<[Z.to_nat i := delete (Z.to_nat idx) row]> (m_Adj this))) this.

(** The counting loop of the constructor from connections,
    [NConns[c.first]++].  An index outside the vector, which is a
    negative [c.first], or [INT_MAX] when [NNodes] comes from another
    connection, C++ leaves undefined: [None]. *)
Fixpoint count_connections (Connections : list (Z * Z)) (NConns : list Z)
  : option (list Z) :=
  match Connections with
  | [] => Some NConns
  | c :: rest =>
      if ((c.1 <? 0) || (Z.of_nat (length NConns) <=? c.1))%Z then None
      else count_connections rest
             (<[Z.to_nat c.1 := (NConns !!! Z.to_nat c.1 + 1)%Z]> NConns)
  end.

(** [AdjacencyList(const std::vector<std::pair<int,int>>& Connections)].
    [NConns] only feeds [reserve], which a list does not observe. *)
Definition ctor_connections (Connections : list (Z * Z)) : option t :=
  let NNodes :=
    fold_left (fun n c => Z.max n (wrap_int (c.1 + 1))) Connections 0%Z in
  let this := {| m_Adj := []; m_NConnections := Z.of_nat (length Connections) |} in
  if (NNodes =? 0)%Z then Some this
  else
    NConns ← count_connections Connections (replicate (Z.to_nat NNodes) 0%Z);
    Some (for_each Connections
            (fun c => try_catch (AddAdjacent c.1 c.2))
            {| m_Adj := replicate (Z.to_nat NNodes) [];
               m_NConnections := m_NConnections this |}).2.

End AdjacencyList.

(** *** cut::CompatAdjacencyList *)

Module CompatAdjacencyList.

Record t : Type := mk {
  m_Adj : list Z;
  m_Idx : list Z
}.

Definition update_Adj (f : list Z -> list Z) : M t unit :=
  fun this => (Ok tt, {| m_Adj := f (m_Adj this); m_Idx := m_Idx this |}).

Definition update_Idx (f : list Z -> list Z) : M t unit :=
  fun this => (Ok tt, {| m_Adj := m_Adj this; m_Idx := f (m_Idx this) |}).

Definition NumNodes (this : t) : Z := Z.of_nat (length (m_Idx this)) - 1.
Definition NumConnections (this : t) : Z := Z.of_nat (length (m_Adj this)).

Definition NumAdjacents (this : t) (i : Z) : Result Z :=
  CUTCheckGEQ i 0 ;;
  CUTCheckLess i (NumNodes this) ;;
  Ok (m_Idx this !!! Z.to_nat (i + 1) - m_Idx this !!! Z.to_nat i)%Z.

Definition GetAdjacent (this : t) (i idx : Z) : Result Z :=
  CUTCheckGEQ i 0 ;;
  CUTCheckLess i (NumNodes this) ;;
  CUTCheckGEQ idx 0 ;;
  n ← NumAdjacents this i;
  CUTCheckLess idx n ;;
  Ok (m_Adj this !!! Z.to_nat (m_Idx this !!! Z.to_nat i + idx)).

End CompatAdjacencyList.

(** *** cut::BaseAdjacencyList

    The abstract interface, over the two classes that implement it in
    the sources; a virtual call dispatches on the dynamic type and
    [dynamic_cast] is a match on it. *)

Module BaseAdjacencyList.

Inductive t : Type :=
| Flexible (FAL : AdjacencyList.t)
| Compact (CAL : CompatAdjacencyList.t).

Definition NumNodes (AL : t) : Z :=
  match AL with
  | Flexible a => AdjacencyList.NumNodes a
  | Compact c => CompatAdjacencyList.NumNodes c
  end.

Definition NumConnections (AL : t) : Z :=
  match AL with
  | Flexible a => AdjacencyList.NumConnections a
  | Compact c => CompatAdjacencyList.NumConnections c
  end.

Definition NumAdjacents (AL : t) (i : Z) : Result Z :=
  match AL with
  | Flexible a => AdjacencyList.NumAdjacents a i
  | Compact c => CompatAdjacencyList.NumAdjacents c i
  end.

Definition GetAdjacent (AL : t) (i idx : Z) : Result Z :=
  match AL with
  | Flexible a => AdjacencyList.GetAdjacent a i idx
  | Compact c => CompatAdjacencyList.GetAdjacent c i idx
  end.

End BaseAdjacencyList.

(** The body shared, word for word, by
    [AdjacencyList(const BaseAdjacencyList& AL)] and
    [AdjacencyList::operator=(const BaseAdjacencyList& AL)]. *)
Definition AdjacencyList_copy_body (AL : BaseAdjacencyList.t)
  : M AdjacencyList.t unit :=
  (* try { dynamic_cast<const AdjacencyList&>(AL) ... } catch (bad_cast) { } *)
  match AL with
  | BaseAdjacencyList.Flexible FAL =>
      AdjacencyList.set_Adj (AdjacencyList.m_Adj FAL) ;;
      AdjacencyList.set_NConnections (AdjacencyList.m_NConnections FAL)
  | BaseAdjacencyList.Compact _ => st_ret tt
  end ;;
  (* Otherwise, use abstract interface *)
  AdjacencyList.set_NConnections (BaseAdjacencyList.NumConnections AL) ;;
  let NNodes := BaseAdjacencyList.NumNodes AL in
  AdjacencyList.update_Adj (resize (Z.to_nat NNodes) []) ;;
  if (NNodes =? 0)%Z then st_ret tt
  else
    for_range 0 NNodes (fun i =>
      NAdjs ← check (BaseAdjacencyList.NumAdjacents AL i);
      for_range 0 NAdjs (fun j =>
        x ← check (BaseAdjacencyList.GetAdjacent AL i j);
        AdjacencyList.update_Adj
          (fun adj => <[Z.to_nat i := (adj !!! Z.to_nat i) ++ [x]]> adj))).

(** [AdjacencyList(const BaseAdjacencyList& AL)]: the body, run on the
    members as default-initialised. *)
Definition AdjacencyList_copy (AL : BaseAdjacencyList.t)
  : Result unit * AdjacencyList.t :=
  AdjacencyList_copy_body AL
    {| AdjacencyList.m_Adj := []; AdjacencyList.m_NConnections := 0 |}.

(** [AdjacencyList::operator=(const BaseAdjacencyList& AL)] *)
Definition AdjacencyList_assign (AL : BaseAdjacencyList.t)
  : M AdjacencyList.t unit :=
  AdjacencyList_copy_body AL.

(** [CompatAdjacencyList(const BaseAdjacencyList& AL)] *)
Definition CompatAdjacencyList_copy_body (AL : BaseAdjacencyList.t)
  : M CompatAdjacencyList.t unit :=
  (* try { dynamic_cast<const CompatAdjacencyList&>(AL) ... } catch (bad_cast) { } *)
  match AL with
  | BaseAdjacencyList.Compact CAL =>
      CompatAdjacencyList.update_Adj (fun _ => CompatAdjacencyList.m_Adj CAL) ;;
      CompatAdjacencyList.update_Idx (fun _ => CompatAdjacencyList.m_Idx CAL)
  | BaseAdjacencyList.Flexible _ => st_ret tt
  end ;;
  (* Otherwise, use abstract interface *)
  let NNodes := BaseAdjacencyList.NumNodes AL in
  CompatAdjacencyList.update_Idx (resize (Z.to_nat (NNodes + 1)) 0%Z) ;;
  for_range 0 NNodes (fun i =>
    NAdjs ← check (BaseAdjacencyList.NumAdjacents AL i);
    CompatAdjacencyList.update_Idx
      (fun Idx => <[Z.to_nat (i + 1) := (Idx !!! Z.to_nat i + NAdjs)%Z]> Idx) ;;
    for_range 0 NAdjs (fun j =>
      x ← check (BaseAdjacencyList.GetAdjacent AL i j);
      CompatAdjacencyList.update_Adj (fun adj => adj ++ [x]))).

Definition CompatAdjacencyList_copy (AL : BaseAdjacencyList.t)
  : Result unit * CompatAdjacencyList.t :=
  CompatAdjacencyList_copy_body AL
    {| CompatAdjacencyList.m_Adj := []; CompatAdjacencyList.m_Idx := [] |}.

(** ** Specification of the heap *)

(** [nodes[perm[e]].elementId == e] for every element [e]. *)
Definition perm_inverse (h : MinHeap.t) : Prop :=
  forall e, e < MinHeap.Size h ->
    MinHeap.m_Perm h !!! e < MinHeap.Size h
    /\ MinHeap.elem_at h (MinHeap.m_Perm h !!! e) = e.



(** [m_Perm] and the element ids of [m_Nodes] are inverse of each other,
    and the sign is one of the two the constructor chooses from. *)
Definition wf (h : MinHeap.t) : Prop :=
  length (MinHeap.m_Perm h) = MinHeap.Size h
  /\ perm_inverse h
  /\ (forall v, v < MinHeap.Size h ->
        MinHeap.elem_at h v < MinHeap.Size h
        /\ MinHeap.m_Perm h !!! (MinHeap.elem_at h v) = v)
  /\ (MinHeap.m_Sign h = 1 \/ MinHeap.m_Sign h = -1)%Z.

(** The states a heap goes through: built by the constructor, then
    changed by calls of [DecreaseKey] and [IncreaseKey] that return, with
    amounts taken from [amount]. *)
Inductive reachable (amount : Z -> Prop) : MinHeap.t -> Prop :=
| reach_ctor Keys IsMaxHeap :
    reachable amount (MinHeap.ctor Keys IsMaxHeap)
| reach_DecreaseKey h fuel Element Decrement h' :
    reachable amount h -> amount Decrement ->
    MinHeap.DecreaseKey fuel h Element Decrement = Some (Ok h') ->
    reachable amount h'
| reach_IncreaseKey h fuel Element Increment h' :
    reachable amount h -> amount Increment ->
    MinHeap.IncreaseKey fuel h Element Increment = Some (Ok h') ->
    reachable amount h'.

(** The key of element [e] as the heap stores it. *)
Definition stored_key (h : MinHeap.t) (e : nat) : Z :=
  MinHeap.key_at h (MinHeap.m_Perm h !!! e).

(** Heap order with the parent written as the code computes it,
    [v >> 1]. *)
Definition ordered (h : MinHeap.t) : Prop :=
  forall w, 1 <= w -> w < MinHeap.Size h ->
    (MinHeap.key_at h (Nat.div2 w) <= MinHeap.key_at h w)%Z.

(** What holds while [MoveUp] is at position [v]: order everywhere but
    between [v] and its parent, and between the parent and the children
    of [v]. *)
Definition up_inv (h : MinHeap.t) (v : nat) : Prop :=
  (forall w, 1 <= w -> w < MinHeap.Size h -> w <> v ->
     (MinHeap.key_at h (Nat.div2 w) <= MinHeap.key_at h w)%Z)
  /\ (forall w, 1 <= v -> 1 <= w -> w < MinHeap.Size h -> Nat.div2 w = v ->
        (MinHeap.key_at h (Nat.div2 v) <= MinHeap.key_at h w)%Z).


(** The child [u] that an iteration of [MoveDown] at [v] settles on. *)
Definition chosen_child (h : MinHeap.t) (v : nat) : nat :=
  if (2 * v + 1 <? MinHeap.Size h)
     && (MinHeap.key_at h (2 * v + 1) <? MinHeap.key_at h (2 * v))%Z
  then 2 * v + 1 else 2 * v.

(** [h'] has the size, the sign and, element by element, the keys of
    [h]. *)
Definition same_keys (h h' : MinHeap.t) : Prop :=
  MinHeap.Size h' = MinHeap.Size h
  /\ MinHeap.m_Sign h' = MinHeap.m_Sign h
  /\ forall e, e < MinHeap.Size h -> stored_key h' e = stored_key h e.

(** The heap holds the keys of [Keys], sign applied, element by
    element. *)
Definition holds_keys (Keys : list Z) (h : MinHeap.t) : Prop :=
  MinHeap.Size h = length Keys
  /\ forall e k, Keys !! e = Some k ->
       stored_key h e = (MinHeap.m_Sign h * k)%Z.

(** The state of [Insert] between [emplace_back] and [MoveUp]. *)
Definition appended (h : MinHeap.t) (Key : Z) : MinHeap.t :=
  {| MinHeap.m_Nodes :=
       MinHeap.m_Nodes h
       ++ [((MinHeap.m_Sign h * Key)%Z, length (MinHeap.m_Nodes h))];
     MinHeap.m_Perm := MinHeap.m_Perm h ++ [length (MinHeap.m_Nodes h)];
     MinHeap.m_Sign := MinHeap.m_Sign h |}.

(** ** Specification of the adjacency lists *)

(** The mutation operations of [AdjacencyList]. *)
Inductive Mutation : Type :=
| DoAddNode
| DoInsertNode (i : Z)
| DoSwapNodes (i j : Z)
| DoRemoveNode (i : Z)
| DoAddAdjacent (i j : Z)
| DoInsertAdjacent (i j idx : Z)
| DoUpdateAdjacent (i j idx : Z)
| DoReplaceAdjacent (i j k : Z)
| DoRemoveAdjacent (i idx : Z).

Definition mutate (op : Mutation) : M AdjacencyList.t unit :=
  match op with
  | DoAddNode => AdjacencyList.AddNode
  | DoInsertNode i => AdjacencyList.InsertNode i
  | DoSwapNodes i j => AdjacencyList.SwapNodes i j
  | DoRemoveNode i => AdjacencyList.RemoveNode i
  | DoAddAdjacent i j => AdjacencyList.AddAdjacent i j
  | DoInsertAdjacent i j idx => AdjacencyList.InsertAdjacent i j idx
  | DoUpdateAdjacent i j idx => AdjacencyList.UpdateAdjacent i j idx
  | DoReplaceAdjacent i j k => AdjacencyList.ReplaceAdjacent i j k
  | DoRemoveAdjacent i idx => AdjacencyList.RemoveAdjacent i idx
  end.

(** The sum over all nodes [i] of [NumAdjacents(i)]. *)
Definition sum_NumAdjacents (this : AdjacencyList.t) : Z :=
  foldr (fun i acc =>
           match AdjacencyList.NumAdjacents this (Z.of_nat i) with
           | Ok n => (n + acc)%Z
           | Throw _ => acc
           end)
        0%Z (seq 0 (length (AdjacencyList.m_Adj this))).

(** Node [i] and position [idx] of its list exist. *)
Definition valid_position (this : AdjacencyList.t) (i idx : Z) : Prop :=
  (0 <= i < AdjacencyList.NumNodes this)%Z
  /\ (0 <= idx < Z.of_nat (length (AdjacencyList.m_Adj this !!! Z.to_nat i)))%Z.



(** [CAL] is the compact form of the rows [A]: the rows one after the
    other, and the offset at which each starts. *)
Definition flattens (A : list (list Z)) (CAL : CompatAdjacencyList.t) : Prop :=
  CompatAdjacencyList.m_Adj CAL = concat A
  /\ length (CompatAdjacencyList.m_Idx CAL) = S (length A)
  /\ forall i, i <= length A ->
       CompatAdjacencyList.m_Idx CAL !!! i
       = Z.of_nat (length (concat (take i A))).

(** ** More of cut::CompatAdjacencyList (src/algo/adjlist/cadjlist.cpp) *)

(** [CompatAdjacencyList::operator=(const BaseAdjacencyList& AL)]: the
    body of the constructor, word for word, run on the members that the
    target has. *)
Definition CompatAdjacencyList_assign (AL : BaseAdjacencyList.t)
  : M CompatAdjacencyList.t unit :=
  CompatAdjacencyList_copy_body AL.

(** *** The constructor from connections *)

(** The order of [std::pair<int, int>], which [std::sort] uses: by
    [first], then by [second]. *)
Definition pair_le (a b : Z * Z) : Prop :=
  (a.1 < b.1)%Z \/ (a.1 = b.1 /\ (a.2 <= b.2)%Z).

#[export] Instance pair_le_dec (a b : Z * Z) : Decision (pair_le a b) :=
  decide ((a.1 < b.1)%Z \/ (a.1 = b.1 /\ (a.2 <= b.2)%Z)).

(** [v[i]], read and written.  Outside the vector C++ leaves both
    undefined: [None]. *)
Definition vec_get (v : list Z) (i : Z) : option Z :=
  if bool_decide (0 <= i < Z.of_nat (length v))%Z
  then Some (v !!! Z.to_nat i) else None.

Definition vec_set (v : list Z) (i : Z) (x : Z) : option (list Z) :=
  if bool_decide (0 <= i < Z.of_nat (length v))%Z
  then Some (<[Z.to_nat i := x]> v) else None.

(** [while (Node > CurNode) { CurNode += 1; m_Idx[CurNode + 1] = m_Idx[CurNode]; }]:
    the body runs [Node - CurNode] times, or not at all. *)
Fixpoint advance (n : nat) (CurNode : Z) (Idx : list Z)
  : option (Z * list Z) :=
  match n with
  | 0 => Some (CurNode, Idx)
  | S n =>
      let CurNode := (CurNode + 1)%Z in
      x ← vec_get Idx CurNode;
      Idx ← vec_set Idx (CurNode + 1) x;
      advance n CurNode Idx
  end.

(** The loop over the sorted connections. *)
Fixpoint fill_compact (Conns : list (Z * Z)) (CurNode : Z)
    (this : CompatAdjacencyList.t) : option CompatAdjacencyList.t :=
  match Conns with
  | [] => Some this
  | c :: rest =>
      let Node := c.1 in
      '(CurNode, Idx) ← advance (Z.to_nat (Node - CurNode)) CurNode
                          (CompatAdjacencyList.m_Idx this);
      let Adj := CompatAdjacencyList.m_Adj this ++ [c.2] in
      x ← vec_get Idx (CurNode + 1);
      Idx ← vec_set Idx (CurNode + 1) (x + 1)%Z;
      fill_compact rest CurNode (CompatAdjacencyList.mk Adj Idx)
  end.

(** [CompatAdjacencyList(const std::vector<std::pair<int,int>>& Connections)].
    [std::sort] leaves the one sorted arrangement of the pairs, which
    [merge_sort] computes.  No object is built ([None]) from no
    connection, where the code reads [Conns[-1]], nor when [NNodes + 1]
    is negative, a size that [resize] refuses: that is the case of a
    largest node below -2, and of a largest node [INT_MAX - 1] or
    [INT_MAX], for which one of the two sums wraps.  In the loops
    [CurNode + 1] is at most [NNodes], which did not wrap. *)
Definition CompatAdjacencyList_ctor_connections (Connections : list (Z * Z))
  : option CompatAdjacencyList.t :=
  let Conns := merge_sort pair_le Connections in
  c ← last Conns;
  let NNodes := wrap_int (c.1 + 1) in
  let size := wrap_int (NNodes + 1) in
  if (size <? 0)%Z then None
  else
    fill_compact Conns 0
      (CompatAdjacencyList.mk [] (replicate (Z.to_nat size) 0%Z)).

(** ** Further specification of the adjacency lists *)

(** The states an [AdjacencyList] goes through: built by one of the two
    constructors that take no other list, then changed by the mutation
    operations, those that throw included. *)
Inductive adj_reachable : AdjacencyList.t -> Prop :=
| adj_reach_ctor N :
    adj_reachable (AdjacencyList.ctor N)
| adj_reach_ctor_connections Connections this :
    AdjacencyList.ctor_connections Connections = Some this ->
    adj_reachable this
| adj_reach_mutate op this :
    adj_reachable this -> adj_reachable (mutate op this).2.

(** The node whose list an operation on adjacents works on. *)
Definition touched_node (op : Mutation) : option Z :=
  match op with
  | DoAddAdjacent i _ | DoInsertAdjacent i _ _ | DoUpdateAdjacent i _ _
  | DoReplaceAdjacent i _ _ | DoRemoveAdjacent i _ => Some i
  | DoAddNode | DoInsertNode _ | DoSwapNodes _ _ | DoRemoveNode _ => None
  end.




(** ** Proofs: the heap *)

Example heap_demo :
  MinHeap.FindMin (MinHeap.ctor [3; 1; 2]%Z false) = Ok (1%Z, 1)
  /\ MinHeap.FindMin (MinHeap.ctor [3; 1; 2]%Z true) = Ok (3%Z, 0)
  /\ MinHeap.DecreaseKey 0 (MinHeap.ctor [3; 1; 2]%Z false) 2 5
     = Some (Ok (MinHeap.mk [((-3)%Z, 2); (1%Z, 1); (3%Z, 0)] [2; 1; 0] 1%Z))
  /\ MinHeap.IncreaseKey 5 (MinHeap.ctor [3]%Z false) 0 1 = None.
Proof. vm_compute. repeat split. Qed.

Example adjacency_demo :
  let FAL := (AdjacencyList.AddAdjacent 0 7 (AdjacencyList.ctor 2)).2 in
  AdjacencyList_copy (BaseAdjacencyList.Flexible FAL)
  = (Ok tt, AdjacencyList.mk [[7; 7]; []]%Z 0)
  /\ AdjacencyList.ctor_connections [(0, 5); (1, 5); (0, 5); (0, 2)]%Z
     = Some (AdjacencyList.mk [[5; 2]; [5]]%Z 4)
  /\ (CompatAdjacencyList_copy (BaseAdjacencyList.Flexible
        (AdjacencyList.mk [[5; 2]; []; [5]]%Z 3))).2
     = CompatAdjacencyList.mk [5; 2; 5]%Z [0; 2; 2; 3]%Z.
Proof. vm_compute. repeat split. Qed.

Section Swap.
Context {A : Type} `{Inhabited A}.

Lemma swap_length (l : list A) i j : length (swap l i j) = length l.
Proof. unfold swap. by rewrite !length_insert. Qed.

Lemma swap_lookup (l : list A) i j k :
  i < length l -> j < length l ->
  swap l i j !!! k =
    if decide (k = j) then l !!! i
    else if decide (k = i) then l !!! j else l !!! k.
Proof.
  intros Hi Hj. unfold swap.
  destruct (decide (k = j)) as [->|Hkj].
  - rewrite list_lookup_total_insert_eq; [done|by rewrite length_insert].
  - rewrite list_lookup_total_insert_ne by done.
    destruct (decide (k = i)) as [->|Hki].
    + by rewrite list_lookup_total_insert_eq.
    + by rewrite list_lookup_total_insert_ne.
Qed.
End Swap.

Lemma div2_bounds w : 2 * Nat.div2 w <= w <= 2 * Nat.div2 w + 1.
Proof.
  rewrite Nat.div2_div.
  pose proof (Nat.div_mod_eq w 2). pose proof (Nat.mod_upper_bound w 2). lia.
Qed.

Ltac div2_facts :=
  repeat match goal with
  | |- context [Nat.div2 ?w] =>
      lazymatch goal with
      | _ : 2 * Nat.div2 w <= w <= 2 * Nat.div2 w + 1 |- _ => fail
      | _ => pose proof (div2_bounds w)
      end
  | _ : context [Nat.div2 ?w] |- _ =>
      lazymatch goal with
      | _ : 2 * Nat.div2 w <= w <= 2 * Nat.div2 w + 1 |- _ => fail
      | _ => pose proof (div2_bounds w)
      end
  end.

(** Closes a comparison of keys: the positions are told apart, the
    parents that coincide are identified, and arithmetic does the rest. *)
Ltac key_cases :=
  repeat case_decide; div2_facts;
  repeat match goal with
  | E : Nat.div2 _ = _ |- _ => rewrite E in *
  | E : ?w = _ |- _ => is_var w; subst w
  end;
  try lia.

Section HeapSwap.
Import MinHeap.

Lemma Size_swap_nodes h a b : Size (swap_nodes h a b) = Size h.
Proof. unfold Size, swap_nodes. simpl. apply swap_length. Qed.

Lemma Sign_swap_nodes h a b : m_Sign (swap_nodes h a b) = m_Sign h.
Proof. done. Qed.

Lemma key_at_swap_nodes h a b k :
  a < Size h -> b < Size h ->
  key_at (swap_nodes h a b) k =
    if decide (k = b) then key_at h a
    else if decide (k = a) then key_at h b else key_at h k.
Proof.
  intros Ha Hb. unfold key_at, swap_nodes. simpl.
  rewrite swap_lookup by done. repeat case_decide; done.
Qed.

Lemma elem_at_swap_nodes h a b k :
  a < Size h -> b < Size h ->
  elem_at (swap_nodes h a b) k =
    if decide (k = b) then elem_at h a
    else if decide (k = a) then elem_at h b else elem_at h k.
Proof.
  intros Ha Hb. unfold elem_at, swap_nodes. simpl.
  rewrite swap_lookup by done. repeat case_decide; done.
Qed.

Lemma Perm_swap_nodes_eq h a b :
  a < Size h -> b < Size h ->
  m_Perm (swap_nodes h a b) = swap (m_Perm h) (elem_at h b) (elem_at h a).
Proof.
  intros Ha Hb.
  pose proof (elem_at_swap_nodes h a b a Ha Hb) as Ea.
  pose proof (elem_at_swap_nodes h a b b Ha Hb) as Eb.
  rewrite decide_True in Eb by done.
  assert (Ea' : elem_at (swap_nodes h a b) a = elem_at h b).
  { rewrite Ea. repeat case_decide; by subst. }
  unfold swap_nodes at 1. simpl.
  change ((swap (m_Nodes h) a b !!! a).2) with (elem_at (swap_nodes h a b) a).
  change ((swap (m_Nodes h) a b !!! b).2) with (elem_at (swap_nodes h a b) b).
  by rewrite Ea', Eb.
Qed.

Lemma Perm_swap_nodes h a b e :
  wf h -> a < Size h -> b < Size h ->
  m_Perm (swap_nodes h a b) !!! e =
    if decide (e = elem_at h a) then b
    else if decide (e = elem_at h b) then a else m_Perm h !!! e.
Proof.
  intros (Hlen & _ & Hback & _) Ha Hb.
  destruct (Hback a Ha) as [Hea Hpa]. destruct (Hback b Hb) as [Heb Hpb].
  rewrite Perm_swap_nodes_eq by done.
  rewrite swap_lookup by lia.
  by rewrite Hpa, Hpb.
Qed.

Lemma wf_swap_nodes h a b :
  wf h -> a < Size h -> b < Size h -> wf (swap_nodes h a b).
Proof.
  intros Hwf Ha Hb.
  pose proof Hwf as (Hlen & Hfwd & Hback & Hsign).
  destruct (Hback a Ha) as [Hea Hpa]. destruct (Hback b Hb) as [Heb Hpb].
  split; [|split; [|split]].
  - rewrite Size_swap_nodes. unfold swap_nodes. simpl.
    by rewrite swap_length.
  - intros e He. rewrite Size_swap_nodes in He |- *.
    rewrite Perm_swap_nodes by done.
    destruct (Hfwd e He) as [Hpe Hee].
    repeat case_decide; subst;
      rewrite elem_at_swap_nodes by done;
      repeat case_decide; subst; try done; try congruence.
  - intros v Hv. rewrite Size_swap_nodes in Hv |- *.
    rewrite elem_at_swap_nodes by done.
    destruct (Hback v Hv) as [Hev Hpv].
    repeat case_decide; subst;
      rewrite Perm_swap_nodes by done;
      repeat case_decide; subst; try done; try congruence.
  - done.
Qed.

Lemma stored_key_swap_nodes h a b e :
  wf h -> a < Size h -> b < Size h -> e < Size h ->
  stored_key (swap_nodes h a b) e = stored_key h e.
Proof.
  intros Hwf Ha Hb He.
  pose proof Hwf as (Hlen & Hfwd & Hback & Hsign).
  destruct (Hback a Ha) as [Hea Hpa]. destruct (Hback b Hb) as [Heb Hpb].
  destruct (Hfwd e He) as [Hpe Hee].
  unfold stored_key. rewrite Perm_swap_nodes by done.
  repeat case_decide; subst;
    rewrite key_at_swap_nodes by done;
    repeat case_decide; subst; try done; try congruence.
Qed.
End HeapSwap.

Section Sift.
Import MinHeap.

Lemma MoveDown_loop_S fuel h v :
  MoveDown_loop (S fuel) h v =
    if Size h <=? 2 * v then Some h
    else if (key_at h v <? key_at h (chosen_child h v))%Z then Some h
    else MoveDown_loop fuel (swap_nodes h v (chosen_child h v))
           (chosen_child h v).
Proof. reflexivity. Qed.

Lemma chosen_child_spec h v :
  2 * v < Size h ->
  chosen_child h v < Size h
  /\ (chosen_child h v = 2 * v \/ chosen_child h v = 2 * v + 1)
  /\ forall w, w < Size h -> 1 <= w -> Nat.div2 w = v ->
       (key_at h (chosen_child h v) <= key_at h w)%Z.
Proof.
  intros Hc. unfold chosen_child.
  destruct (Nat.ltb_spec (2 * v + 1) (Size h)) as [H2|H2]; cbn [andb].
  - destruct (Z.ltb_spec (key_at h (2 * v + 1)) (key_at h (2 * v))) as [Hk|Hk].
    + split; [lia|]. split; [lia|]. intros w ? ? ?.
      assert (w = 2 * v \/ w = 2 * v + 1) as [->| ->] by (div2_facts; lia); lia.
    + split; [lia|]. split; [lia|]. intros w ? ? ?.
      assert (w = 2 * v \/ w = 2 * v + 1) as [->| ->] by (div2_facts; lia); lia.
  - split; [lia|]. split; [lia|]. intros w ? ? ?.
    assert (w = 2 * v) as -> by (div2_facts; lia). lia.
Qed.


Lemma MoveUp_loop_ordered v :
  forall h, v < Size h -> up_inv h v -> ordered (MoveUp_loop h v).
Proof.
  induction v as [v IH] using lt_wf_ind. intros h Hv [Hrest Hgrand].
  destruct v as [|n].
  { rewrite MoveUp_loop_equation_1. intros w ? ?. apply Hrest; lia. }
  rewrite MoveUp_loop_equation_2.
  remember (S n) as v eqn:Ev. remember (Nat.div2 v) as p eqn:Ep.
  assert (Hp : p < v) by (div2_facts; lia).
  destruct (Z.ltb_spec (key_at h p) (key_at h v)) as [Hlt|Hge].
  { intros w ? ?. destruct (decide (w = v)) as [->|]; [rewrite <- Ep; lia|].
    by apply Hrest. }
  apply IH; [done|rewrite Size_swap_nodes; lia|].
  split.
  - intros w Hw1 Hw2 Hwp. rewrite Size_swap_nodes in Hw2.
    rewrite !key_at_swap_nodes by lia.
    pose proof (Hrest w Hw1 Hw2). pose proof (Hgrand w).
    key_cases.
  - intros w Hp1 Hw1 Hw2 Hwp. rewrite Size_swap_nodes in Hw2.
    rewrite !key_at_swap_nodes by lia.
    pose proof (Hrest w Hw1 Hw2). pose proof (Hrest p).
    key_cases.
Qed.

End Sift.

Section Preserve.
Import MinHeap.

Lemma same_keys_refl h : same_keys h h.
Proof. by repeat split. Qed.

Lemma same_keys_trans h1 h2 h3 :
  same_keys h1 h2 -> same_keys h2 h3 -> same_keys h1 h3.
Proof.
  intros (Hn & Hs & Hk) (Hn' & Hs' & Hk'). repeat split; try congruence.
  intros e He. rewrite Hk' by lia. by apply Hk.
Qed.

Lemma same_keys_swap_nodes h a b :
  wf h -> a < Size h -> b < Size h -> same_keys h (swap_nodes h a b).
Proof.
  intros Hwf Ha Hb. split; [apply Size_swap_nodes|]. split; [done|].
  intros e He. by apply stored_key_swap_nodes.
Qed.

Lemma MoveUp_loop_keeps v :
  forall h, wf h -> v < Size h ->
    wf (MoveUp_loop h v) /\ same_keys h (MoveUp_loop h v).
Proof.
  induction v as [v IH] using lt_wf_ind. intros h Hwf Hv.
  destruct v as [|n].
  { rewrite MoveUp_loop_equation_1. auto using same_keys_refl. }
  rewrite MoveUp_loop_equation_2.
  assert (Hp : Nat.div2 (S n) < S n) by (div2_facts; lia).
  case_match; [auto using same_keys_refl|].
  destruct (IH (Nat.div2 (S n)) Hp (swap_nodes h (Nat.div2 (S n)) (S n)))
    as [Hwf' Hsame].
  - apply wf_swap_nodes; [done|lia..].
  - rewrite Size_swap_nodes. lia.
  - split; [done|].
    eapply same_keys_trans; [|exact Hsame].
    apply same_keys_swap_nodes; [done|lia..].
Qed.

Lemma MoveDown_loop_keeps fuel :
  forall h v h', wf h -> v < Size h ->
    MoveDown_loop fuel h v = Some h' -> wf h' /\ same_keys h h'.
Proof.
  induction fuel as [|fuel IH]; [done|].
  intros h v h' Hwf Hv. rewrite MoveDown_loop_S.
  destruct (Nat.leb_spec (Size h) (2 * v)) as [Hleaf|Hchild].
  { intros [= <-]. auto using same_keys_refl. }
  destruct (chosen_child_spec h v Hchild) as (Hu & _ & _).
  case_match; [intros [= <-]; auto using same_keys_refl|].
  intros Hloop. apply IH in Hloop as [Hwf' Hsame].
  - split; [done|].
    eapply same_keys_trans; [|exact Hsame].
    by apply same_keys_swap_nodes.
  - by apply wf_swap_nodes.
  - by rewrite Size_swap_nodes.
Qed.

(** [m_Nodes[v].first += d] *)
Lemma Size_add_key h v d : Size (add_key h v d) = Size h.
Proof. unfold Size, add_key. simpl. apply length_insert. Qed.

Lemma key_at_add_key h v d k :
  v < Size h ->
  key_at (add_key h v d) k =
    if decide (k = v) then (key_at h v + d)%Z else key_at h k.
Proof.
  intros Hv. unfold key_at at 1, add_key. simpl.
  case_decide as Hk.
  - subst. by rewrite list_lookup_total_insert_eq.
  - by rewrite list_lookup_total_insert_ne.
Qed.

Lemma elem_at_add_key h v d k : elem_at (add_key h v d) k = elem_at h k.
Proof.
  unfold elem_at at 1, add_key. simpl.
  destruct (decide (v = k /\ v < length (m_Nodes h))) as [[-> Hv]|Hn].
  - by rewrite list_lookup_total_insert_eq.
  - rewrite list_lookup_total_insert. by rewrite decide_False.
Qed.

Lemma wf_add_key h v d : wf h -> wf (add_key h v d).
Proof.
  intros (Hlen & Hfwd & Hback & Hsign).
  unfold wf, perm_inverse. rewrite !Size_add_key.
  setoid_rewrite elem_at_add_key. done.
Qed.

Lemma stored_key_add_key h e d e' :
  wf h -> e < Size h -> e' < Size h ->
  stored_key (add_key h (m_Perm h !!! e) d) e' =
    if decide (e' = e) then (stored_key h e + d)%Z else stored_key h e'.
Proof.
  intros (Hlen & Hfwd & Hback & Hsign) He He'.
  destruct (Hfwd e He) as [Hp Hee]. destruct (Hfwd e' He') as [Hp' Hee'].
  unfold stored_key. rewrite key_at_add_key by done. simpl.
  repeat case_decide; subst; try done; congruence.
Qed.
End Preserve.

Section KeyUpdates.
Import MinHeap.



(** The two ways a call of [DecreaseKey] or [IncreaseKey] returns. *)
Lemma DecreaseKey_returns fuel h e d h' :
  DecreaseKey fuel h e d = Some (Ok h') ->
  e < Size h
  /\ ((m_Sign h > 0)%Z
      /\ h' = MoveUp_loop (add_key h (m_Perm h !!! e) (- (m_Sign h * d)))
                (m_Perm h !!! e)
      \/ (m_Sign h <= 0)%Z
         /\ MoveDown_loop fuel (add_key h (m_Perm h !!! e) (- (m_Sign h * d)))
              (m_Perm h !!! e) = Some h').
Proof.
  unfold DecreaseKey, MoveUp, MoveDown, CUTCheckLess.
  destruct (Z.leb_spec (Z.of_nat (Size h)) (Z.of_nat e)) as [He|He]; [done|].
  apply Nat2Z.inj_lt in He.
  cbn [add_key m_Perm].
  destruct (Z.ltb_spec 0 (m_Sign h)) as [Hs|Hs].
  - intros [= <-]. split; [done|]. left. split; [lia|done].
  - destruct (MoveDown_loop _ _ _) as [h2|] eqn:Hloop; [|done].
    intros [= <-]. split; [done|]. right. split; [lia|done].
Qed.

Lemma IncreaseKey_returns fuel h e d h' :
  IncreaseKey fuel h e d = Some (Ok h') ->
  e < Size h
  /\ ((m_Sign h <= 0)%Z
      /\ h' = MoveUp_loop (add_key h (m_Perm h !!! e) (m_Sign h * d))
                (m_Perm h !!! e)
      \/ (m_Sign h > 0)%Z
         /\ MoveDown_loop fuel (add_key h (m_Perm h !!! e) (m_Sign h * d))
              (m_Perm h !!! e) = Some h').
Proof.
  unfold IncreaseKey, MoveUp, MoveDown, CUTCheckLess.
  destruct (Z.leb_spec (Z.of_nat (Size h)) (Z.of_nat e)) as [He|He]; [done|].
  apply Nat2Z.inj_lt in He.
  cbn [add_key m_Perm].
  destruct (Z.ltb_spec 0 (m_Sign h)) as [Hs|Hs].
  - destruct (MoveDown_loop _ _ _) as [h2|] eqn:Hloop; [|done].
    intros [= <-]. split; [done|]. right. split; [lia|done].
  - intros [= <-]. split; [done|]. left. split; [lia|done].
Qed.

(** A sift from the position of [e], after its key moved by [d]. *)
Lemma sift_keeps h e d h' fuel :
  wf h -> e < Size h ->
  h' = MoveUp_loop (add_key h (m_Perm h !!! e) d) (m_Perm h !!! e)
  \/ MoveDown_loop fuel (add_key h (m_Perm h !!! e) d) (m_Perm h !!! e)
     = Some h' ->
  wf h' /\ same_keys (add_key h (m_Perm h !!! e) d) h'.
Proof.
  intros Hwf He Hsift.
  pose proof Hwf as (_ & Hfwd & _). destruct (Hfwd e He) as [Hp _].
  pose proof (wf_add_key h (m_Perm h !!! e) d Hwf) as Hwf1.
  destruct Hsift as [->|Hloop].
  - apply MoveUp_loop_keeps; [done|by rewrite Size_add_key].
  - eapply MoveDown_loop_keeps; [done| |exact Hloop].
    by rewrite Size_add_key.
Qed.

Lemma DecreaseKey_keeps fuel h e d h' :
  wf h -> DecreaseKey fuel h e d = Some (Ok h') ->
  e < Size h /\ wf h'
  /\ same_keys (add_key h (m_Perm h !!! e) (- (m_Sign h * d))) h'.
Proof.
  intros Hwf [He Hret]%DecreaseKey_returns. split; [done|].
  eapply sift_keeps; [done..|]. destruct Hret as [[_ ->]|[_ Hl]]; eauto.
Qed.

Lemma IncreaseKey_keeps fuel h e d h' :
  wf h -> IncreaseKey fuel h e d = Some (Ok h') ->
  e < Size h /\ wf h'
  /\ same_keys (add_key h (m_Perm h !!! e) (m_Sign h * d)) h'.
Proof.
  intros Hwf [He Hret]%IncreaseKey_returns. split; [done|].
  eapply sift_keeps; [done..|]. destruct Hret as [[_ ->]|[_ Hl]]; eauto.
Qed.


End KeyUpdates.

Section Construction.
Import MinHeap.

Lemma Size_appended h k : Size (appended h k) = S (Size h).
Proof. unfold Size, appended. simpl. rewrite length_app. simpl. lia. Qed.

Lemma key_at_appended h k w :
  key_at (appended h k) w =
    if decide (w < Size h) then key_at h w
    else if decide (w = Size h) then (m_Sign h * k)%Z
    else (inhabitant : Z * nat).1.
Proof.
  unfold key_at, appended, Size. simpl. case_decide as Hw.
  - by rewrite lookup_total_app_l.
  - rewrite lookup_total_app_r by lia. case_decide as Hw'.
    + subst. by rewrite Nat.sub_diag.
    + destruct (w - length (m_Nodes h)) as [|i] eqn:Hi; [lia|].
      by destruct i.
Qed.

Lemma elem_at_appended h k w :
  w <= Size h ->
  elem_at (appended h k) w = if decide (w < Size h) then elem_at h w else w.
Proof.
  intros Hw. unfold elem_at, appended, Size in *. simpl. case_decide as Hlt.
  - by rewrite lookup_total_app_l.
  - rewrite lookup_total_app_r by lia.
    replace w with (length (m_Nodes h)) by lia. by rewrite Nat.sub_diag.
Qed.

Lemma Perm_appended h k e :
  wf h -> e <= Size h ->
  m_Perm (appended h k) !!! e =
    if decide (e < Size h) then m_Perm h !!! e else e.
Proof.
  intros (Hlen & _) He. unfold appended, Size in *. simpl. case_decide as Hlt.
  - rewrite lookup_total_app_l by lia. done.
  - rewrite lookup_total_app_r by lia.
    replace e with (length (m_Perm h)) at 1 by lia.
    rewrite Nat.sub_diag. simpl. lia.
Qed.

Lemma wf_appended h k : wf h -> wf (appended h k).
Proof.
  intros Hwf. pose proof Hwf as (Hlen & Hfwd & Hback & Hsign).
  split; [|split; [|split]].
  - rewrite Size_appended. unfold appended. simpl.
    rewrite length_app. simpl. lia.
  - intros e He. rewrite Size_appended in He |- *.
    rewrite Perm_appended by (done || lia). case_decide as Hlt.
    + destruct (Hfwd e Hlt) as [Hp Hee].
      rewrite elem_at_appended by lia. rewrite decide_True by done.
      split; [lia|done].
    + rewrite elem_at_appended by lia. rewrite decide_False by done.
      split; [lia|done].
  - intros v Hv. rewrite Size_appended in Hv |- *.
    rewrite elem_at_appended by lia. case_decide as Hlt.
    + destruct (Hback v Hlt) as [Hev Hpv].
      rewrite Perm_appended by (done || lia). rewrite decide_True by done.
      split; [lia|done].
    + rewrite Perm_appended by (done || lia). rewrite decide_False by done.
      split; [lia|done].
  - done.
Qed.

Lemma up_inv_appended h k :
  ordered h -> up_inv (appended h k) (Size h).
Proof.
  intros Hord. split.
  - intros w Hw1 Hw2 Hwv. rewrite Size_appended in Hw2.
    rewrite !key_at_appended.
    pose proof (Hord w Hw1). key_cases.
  - intros w Hv1 Hw1 Hw2 Hwv. rewrite Size_appended in Hw2.
    div2_facts. lia.
Qed.

Lemma Insert_unfold h k :
  wf h -> Insert h k = MoveUp_loop (appended h k) (Size h).
Proof.
  intros Hwf. unfold Insert, MoveUp. fold (appended h k).
  change (length (m_Nodes (appended h k))) with (Size (appended h k)).
  rewrite Size_appended, Nat.sub_1_r. simpl pred.
  rewrite Perm_appended by (done || lia). by rewrite decide_False by lia.
Qed.

Lemma holds_keys_appended Keys h k :
  wf h -> holds_keys Keys h -> holds_keys (Keys ++ [k]) (appended h k).
Proof.
  intros Hwf [Hn Hk]. pose proof Hwf as (Hlen & Hfwd & _).
  split.
  - rewrite Size_appended, length_app. simpl. lia.
  - intros e k' He. unfold stored_key.
    assert (e <= Size h) as Hle.
    { apply lookup_lt_Some in He. rewrite length_app in He. simpl in He. lia. }
    rewrite Perm_appended by done. case_decide as Hlt.
    + destruct (Hfwd e Hlt) as [Hp _].
      rewrite key_at_appended, decide_True by done.
      rewrite lookup_app_l in He by lia. by apply Hk.
    + rewrite key_at_appended, decide_False, decide_True by lia.
      rewrite lookup_app_r in He by lia.
      replace (e - length Keys) with 0 in He by lia. by injection He as ->.
Qed.

Lemma Insert_inv Keys h k :
  wf h -> ordered h -> holds_keys Keys h ->
  wf (Insert h k) /\ ordered (Insert h k)
  /\ holds_keys (Keys ++ [k]) (Insert h k)
  /\ m_Sign (Insert h k) = m_Sign h.
Proof.
  intros Hwf Hord Hkeys. rewrite Insert_unfold by done.
  pose proof (wf_appended h k Hwf) as Hwf1.
  assert (Size h < Size (appended h k)) as Hlt
    by (rewrite Size_appended; lia).
  destruct (MoveUp_loop_keeps (Size h) (appended h k) Hwf1 Hlt)
    as [Hwf2 (Hn & Hs & Hk)].
  split; [done|]. split; [|split; [|done]].
  - apply MoveUp_loop_ordered; [done|]. by apply up_inv_appended.
  - destruct (holds_keys_appended Keys h k Hwf Hkeys) as [Hn1 Hk1].
    split; [congruence|].
    intros e k' He. rewrite Hs, Hk.
    + by apply Hk1.
    + apply lookup_lt_Some in He. lia.
Qed.

Lemma fold_Insert_inv Keys :
  forall Keys0 h,
    wf h -> ordered h -> holds_keys Keys0 h ->
    wf (fold_left Insert Keys h) /\ ordered (fold_left Insert Keys h)
    /\ holds_keys (Keys0 ++ Keys) (fold_left Insert Keys h)
    /\ m_Sign (fold_left Insert Keys h) = m_Sign h.
Proof.
  induction Keys as [|k Keys IH]; intros Keys0 h Hwf Hord Hkeys; simpl.
  - by rewrite app_nil_r.
  - destruct (Insert_inv Keys0 h k Hwf Hord Hkeys)
      as (Hwf' & Hord' & Hkeys' & Hs).
    rewrite (cons_middle k Keys0 Keys), app_assoc, <- Hs. by apply IH.
Qed.

Lemma ctor_inv Keys IsMaxHeap :
  wf (ctor Keys IsMaxHeap) /\ ordered (ctor Keys IsMaxHeap)
  /\ holds_keys Keys (ctor Keys IsMaxHeap)
  /\ m_Sign (ctor Keys IsMaxHeap) = (if IsMaxHeap then -1 else 1)%Z.
Proof.
  unfold ctor.
  set (h0 := {| m_Nodes := []; m_Perm := [];
                m_Sign := if IsMaxHeap then (-1)%Z else 1%Z |}).
  assert (wf h0) as Hwf.
  { split; [done|]. split; [|split].
    - intros e He. unfold Size in He. simpl in He. lia.
    - intros v Hv. unfold Size in Hv. simpl in Hv. lia.
    - simpl. destruct IsMaxHeap; auto. }
  assert (ordered h0) as Hord.
  { intros w ? ?. unfold Size in *. simpl in *. lia. }
  assert (holds_keys [] h0) as Hk by (split; [done|intros ? ? [=]]).
  apply (fold_Insert_inv Keys [] h0 Hwf Hord Hk).
Qed.
End Construction.

Section HeapTheorems.
Import MinHeap.

Lemma swap_same {A : Type} `{Inhabited A} (l : list A) i : swap l i i = l.
Proof.
  unfold swap. rewrite list_insert_insert_eq.
  apply list_insert_id'. intros Hi. by apply list_lookup_lookup_total_lt.
Qed.

Lemma swap_nodes_same h v : swap_nodes h v v = h.
Proof.
  destruct h as [nodes perm sign]. unfold swap_nodes. simpl.
  by rewrite !swap_same.
Qed.

(** At the root the loop of [MoveDown] takes the root itself for a
    child, [2 * 0 = 0]: unless position 1 holds a smaller key, the
    iteration swaps the root with itself and starts again. *)
Lemma MoveDown_loop_root_spins h :
  0 < Size h -> chosen_child h 0 = 0 ->
  forall fuel, MoveDown_loop fuel h 0 = None.
Proof.
  intros Hn Hu fuel. induction fuel as [|fuel IH]; [done|].
  rewrite MoveDown_loop_S, Hu.
  destruct (Nat.leb_spec (Size h) (2 * 0)) as [?|_]; [lia|].
  rewrite Z.ltb_irrefl. by rewrite swap_nodes_same.
Qed.

Lemma root_min h :
  ordered h -> forall v, v < Size h -> (key_at h 0 <= key_at h v)%Z.
Proof.
  intros Hord v. induction v as [v IH] using lt_wf_ind. intros Hv.
  destruct (decide (v = 0)) as [->|Hv0]; [lia|].
  assert (Nat.div2 v < v) as Hp by (div2_facts; lia).
  specialize (IH (Nat.div2 v) Hp). specialize (Hord v). lia.
Qed.

Lemma reachable_wf amount h : reachable amount h -> wf h.
Proof.
  induction 1 as [Keys b|h fuel e d h' _ IH _ Hret|h fuel e d h' _ IH _ Hret].
  - apply ctor_inv.
  - by apply DecreaseKey_keeps in Hret as (_ & ? & _).
  - by apply IncreaseKey_keeps in Hret as (_ & ? & _).
Qed.


Lemma FindMin_ctor Keys IsMaxHeap :
  Keys <> [] ->
  exists k e,
    FindMin (ctor Keys IsMaxHeap) = Ok (k, e)
    /\ Keys !! e = Some k
    /\ forall i k', Keys !! i = Some k' ->
         if IsMaxHeap then (k' <= k)%Z else (k <= k')%Z.
Proof.
  intros Hne.
  destruct (ctor_inv Keys IsMaxHeap) as (Hwf & Hord & [Hn Hk] & Hs).
  set (h := ctor Keys IsMaxHeap) in *.
  destruct Hwf as (Hlen & Hfwd & Hback & _).
  assert (0 < Size h) as Hpos.
  { rewrite Hn. destruct Keys; [done|simpl; lia]. }
  destruct (Hback 0 Hpos) as [He0 Hp0].
  assert (is_Some (Keys !! elem_at h 0)) as [k0 Hk0].
  { apply lookup_lt_is_Some. lia. }
  pose proof (Hk _ _ Hk0) as Hroot. unfold stored_key in Hroot.
  rewrite Hp0 in Hroot.
  exists k0, (elem_at h 0). split; [|split; [done|]].
  - unfold FindMin, CUTCheckGreater.
    destruct (Z.leb_spec (Z.of_nat (Size h)) 0); [lia|]. simpl.
    do 2 f_equal. rewrite Hroot, Hs. destruct IsMaxHeap; lia.
  - intros i k' Hi.
    assert (i < Size h) as Hlt by (apply lookup_lt_Some in Hi; lia).
    destruct (Hfwd i Hlt) as [Hpi _].
    pose proof (root_min h Hord _ Hpi) as Hmin.
    pose proof (Hk _ _ Hi) as Hki. unfold stored_key in Hki.
    rewrite Hs in *. destruct IsMaxHeap; lia.
Qed.

Lemma GetKey_stored h e k :
  GetKey h e = Ok k <-> e < Size h /\ k = (m_Sign h * stored_key h e)%Z.
Proof.
  unfold GetKey, stored_key, CUTCheckLess.
  destruct (Z.leb_spec (Z.of_nat (Size h)) (Z.of_nat e)); simpl.
  - split; [done|]. intros [? _]. lia.
  - split; [intros [= <-]; split; [lia|done]|]. by intros [_ ->].
Qed.

End HeapTheorems.

Section Termination.
Import MinHeap.


(** In the direction of [MoveUp] the key updates always return. *)
Lemma DecreaseKey_min_returns fuel h e d :
  (0 < m_Sign h)%Z -> e < Size h ->
  exists h', DecreaseKey fuel h e d = Some (Ok h').
Proof.
  intros Hs He. unfold DecreaseKey, CUTCheckLess.
  destruct (Z.leb_spec (Z.of_nat (Size h)) (Z.of_nat e)); [lia|].
  destruct (Z.ltb_spec 0 (m_Sign h)); [|lia]. eauto.
Qed.

Lemma IncreaseKey_max_returns fuel h e d :
  (m_Sign h <= 0)%Z -> e < Size h ->
  exists h', IncreaseKey fuel h e d = Some (Ok h').
Proof.
  intros Hs He. unfold IncreaseKey, CUTCheckLess.
  destruct (Z.leb_spec (Z.of_nat (Size h)) (Z.of_nat e)); [lia|].
  destruct (Z.ltb_spec 0 (m_Sign h)); [lia|]. eauto.
Qed.
End Termination.

(** ** Theorems: the heap *)

(** C1.  Code defect: [IncreaseKey] on the only element of a min-heap
    never returns.  The loop of [MoveDown] is entered at the root, where
    [u = 2 * v] is the root again, swaps the root with itself and goes
    round: whatever the number of iterations allowed, the call has not
    returned. *)
Theorem IncreaseKey_root_never_returns :
  forall fuel, MinHeap.IncreaseKey fuel (MinHeap.ctor [5%Z] false) 0 1 = None.
Proof.
  intros fuel.
  change (MinHeap.IncreaseKey fuel (MinHeap.ctor [5%Z] false) 0 1)
    with (Ok <$> MinHeap.MoveDown_loop fuel
                   (MinHeap.mk [(6%Z, 0)] [0] 1%Z) 0).
  rewrite MoveDown_loop_root_spins; [done|vm_compute; lia|reflexivity].
Qed.

(** C2.  On the heap built from a non-empty sequence of keys, [FindMin]
    returns a pair [(k, e)] where [k] is the key of element [e] and no
    key is smaller; built as a max-heap, no key is larger. *)
Theorem FindMin_extremum (Keys : list Z) :
  Keys <> [] ->
  (exists k e,
     MinHeap.FindMin (MinHeap.ctor Keys false) = Ok (k, e)
     /\ Keys !! e = Some k
     /\ forall i k', Keys !! i = Some k' -> (k <= k')%Z)
  /\ (exists k e,
        MinHeap.FindMin (MinHeap.ctor Keys true) = Ok (k, e)
        /\ Keys !! e = Some k
        /\ forall i k', Keys !! i = Some k' -> (k' <= k)%Z).
Proof.
  intros Hne. split.
  - apply (FindMin_ctor Keys false Hne).
  - apply (FindMin_ctor Keys true Hne).
Qed.

Lemma FindMin_extremum_witness :
  (exists k e,
     MinHeap.FindMin (MinHeap.ctor [3; 1; 2]%Z false) = Ok (k, e)
     /\ [3; 1; 2]%Z !! e = Some k
     /\ forall i k', [3; 1; 2]%Z !! i = Some k' -> (k <= k')%Z)
  /\ (exists k e,
        MinHeap.FindMin (MinHeap.ctor [3; 1; 2]%Z true) = Ok (k, e)
        /\ [3; 1; 2]%Z !! e = Some k
        /\ forall i k', [3; 1; 2]%Z !! i = Some k' -> (k' <= k)%Z).
Proof. apply (FindMin_extremum [3; 1; 2]%Z). discriminate. Defined.






(** ** Proofs: the adjacency lists *)

(** Runs the checks at the head of a member function. *)
Ltac run_checks :=
  unfold mbind, M_bind, Result_bind, st_bind, res_bind, check, st_ret,
    CUTCheckGEQ, CUTCheckLess, CUTAssert,
    AdjacencyList.set_Adj, AdjacencyList.update_Adj,
    AdjacencyList.NumAdjacents;
  repeat (case_match; simplify_eq/=; try done; try lia);
  try done.

Section AdjacencyFrame.
Import AdjacencyList.

Lemma mutate_NConnections op this :
  m_NConnections (mutate op this).2 = m_NConnections this.
Proof.
  destruct op; unfold mutate, AddNode, InsertNode, SwapNodes, RemoveNode,
    AddAdjacent, InsertAdjacent, UpdateAdjacent, ReplaceAdjacent,
    RemoveAdjacent; run_checks.
Qed.
End AdjacencyFrame.

Ltac split_checks :=
  repeat progress
    (unfold mbind, M_bind, Result_bind, st_bind, res_bind, check, st_ret,
       CUTCheckGEQ, CUTCheckLess, CUTAssert;
     repeat match goal with
     | |- context [(?a <? ?b)%Z] => destruct (Z.ltb_spec a b); try lia
     | |- context [(?a <=? ?b)%Z] => destruct (Z.leb_spec a b); try lia
     end).

Lemma find_None (v : list Z) (x : Z) : find v x = None <-> x ∉ v.
Proof.
  induction v as [|y v IH]; simpl.
  - split; [intros _; apply not_elem_of_nil|done].
  - rewrite not_elem_of_cons. destruct (Z.eqb_spec y x) as [->|Hne].
    + split; [done|]. intros [? _]. done.
    + destruct (find v x) eqn:Hf; simpl.
      * split; [done|]. intros [_ Hx]. by apply IH in Hx.
      * split; [|done]. intros _. split; [done|]. by apply IH.
Qed.

Lemma is_end_find (v : list Z) (x : Z) :
  is_end (find v x) = bool_decide (x ∉ v).
Proof.
  destruct (find v x) eqn:Hf; simpl; symmetry.
  - apply bool_decide_eq_false. intros Hx%find_None. congruence.
  - apply bool_decide_eq_true. by apply find_None.
Qed.

Section AdjacencyErrors.
Import AdjacencyList.

Lemma InsertAdjacent_spec this i j idx :
  let row := m_Adj this !!! Z.to_nat i in
  InsertAdjacent i j idx this =
    if bool_decide (valid_position this i idx) then
      if bool_decide (j ∉ row) then
        (Ok tt,
         {| m_Adj := <[Z.to_nat i := take (Z.to_nat idx) row
                                      ++ j :: drop (Z.to_nat idx) row]>
                       (m_Adj this);
            m_NConnections := m_NConnections this |})
      else (Throw AssertionError, this)
    else (Throw OutOfBoundError, this).
Proof.
  intros row. subst row. unfold InsertAdjacent, valid_position.
  rewrite is_end_find. unfold NumAdjacents, set_Adj, emplace.
  split_checks; simpl;
    try (rewrite bool_decide_eq_false_2 by lia; done).
  rewrite (bool_decide_eq_true_2 (_ /\ _)) by lia.
  by case_bool_decide.
Qed.

Lemma AddAdjacent_spec this i j :
  let row := m_Adj this !!! Z.to_nat i in
  AddAdjacent i j this =
    if bool_decide (0 <= i < NumNodes this)%Z then
      if bool_decide (j ∉ row) then
        (Ok tt,
         {| m_Adj := <[Z.to_nat i := row ++ [j]]> (m_Adj this);
            m_NConnections := m_NConnections this |})
      else (Throw AssertionError, this)
    else (Throw OutOfBoundError, this).
Proof.
  intros row. subst row. unfold AddAdjacent. rewrite is_end_find.
  unfold set_Adj.
  split_checks; simpl;
    try (rewrite bool_decide_eq_false_2 by lia; done).
  rewrite (bool_decide_eq_true_2 (_ /\ _)) by lia.
  by case_bool_decide.
Qed.
End AdjacencyErrors.

Section FirstOccurrences.






End FirstOccurrences.

Section BulkConstruction.
Import AdjacencyList.

(** A loop whose body swallows every exception is a fold. *)
Lemma for_each_try_catch {S T : Type} (f : T -> M S unit) (v : list T) s :
  for_each v (fun c => try_catch (f c)) s
  = (Ok tt, fold_left (fun s c => (f c s).2) v s).
Proof.
  revert s. induction v as [|c v IH]; intros s; [done|].
  simpl. unfold mbind, M_bind, st_bind, try_catch at 1. simpl. apply IH.
Qed.






End BulkConstruction.

Section Loops.
Context {S : Type}.

Lemma st_bind_Ok {A B : Type} (m : M S A) (k : A -> M S B) s a s' :
  m s = (Ok a, s') -> (m ≫= k) s = k a s'.
Proof. intros Hm. unfold mbind, M_bind, st_bind. by rewrite Hm. Qed.

(** A loop whose body keeps an invariant and does not throw. *)
Lemma for_loop_inv (Inv : nat -> S -> Prop) (body : Z -> M S unit) n :
  forall lo s,
    Inv 0 s ->
    (forall k s, k < n -> Inv k s ->
       exists s', body (lo + Z.of_nat k)%Z s = (Ok tt, s') /\ Inv (Datatypes.S k) s') ->
    exists s', for_loop n lo body s = (Ok tt, s') /\ Inv n s'.
Proof.
  revert Inv. induction n as [|n IH]; intros Inv lo s H0 Hstep.
  - exists s. done.
  - destruct (Hstep 0 s ltac:(lia) H0) as (s1 & Hbody & H1).
    rewrite Z.add_0_r in Hbody. simpl.
    rewrite (st_bind_Ok _ _ _ _ _ Hbody).
    apply (IH (fun k => Inv (Datatypes.S k))); [done|].
    intros k s2 Hk Hinv.
    destruct (Hstep (Datatypes.S k) s2 ltac:(lia) Hinv) as (s3 & Hb & H3).
    exists s3. split; [|done]. rewrite <- Hb. f_equal. lia.
Qed.

Lemma for_range_inv (Inv : nat -> S -> Prop) (body : Z -> M S unit) n s :
  Inv 0 s ->
  (forall k s, k < n -> Inv k s ->
     exists s', body (Z.of_nat k) s = (Ok tt, s') /\ Inv (Datatypes.S k) s') ->
  exists s', for_range 0 (Z.of_nat n) body s = (Ok tt, s') /\ Inv n s'.
Proof.
  intros H0 Hstep. unfold for_range.
  replace (Z.to_nat (Z.of_nat n - 0)) with n by lia.
  apply for_loop_inv; [done|]. intros k s1 Hk Hinv.
  rewrite Z.add_0_l. by apply Hstep.
Qed.
End Loops.

Section Rows.
Implicit Types A : list (list Z).

Lemma row_lookup A k : k < length A -> A !! k = Some (A !!! k).
Proof. apply list_lookup_lookup_total_lt. Qed.

Lemma concat_take_S A k :
  k < length A -> concat (take (S k) A) = concat (take k A) ++ A !!! k.
Proof.
  intros Hk. rewrite (take_S_r A k (A !!! k)) by by apply row_lookup.
  rewrite concat_app. simpl. by rewrite app_nil_r.
Qed.

Lemma concat_row_lookup A k j :
  k < length A -> j < length (A !!! k) ->
  concat A !!! (length (concat (take k A)) + j) = (A !!! k) !!! j.
Proof.
  intros Hk Hj.
  replace (concat A)
    with (concat (take k A ++ A !!! k :: drop (S k) A))
    by (by rewrite take_drop_middle by by apply row_lookup).
  rewrite concat_app. rewrite lookup_total_app_r by lia.
  replace (length (concat (take k A)) + j - length (concat (take k A)))
    with j by lia.
  simpl. by rewrite lookup_total_app_l.
Qed.
End Rows.

Section Reads.

Lemma Flexible_NumAdjacents FAL k :
  k < length (AdjacencyList.m_Adj FAL) ->
  AdjacencyList.NumAdjacents FAL (Z.of_nat k)
  = Ok (Z.of_nat (length (AdjacencyList.m_Adj FAL !!! k))).
Proof.
  intros Hk. unfold AdjacencyList.NumAdjacents, AdjacencyList.NumNodes.
  split_checks. simpl. by rewrite Nat2Z.id.
Qed.

Lemma Flexible_GetAdjacent FAL k j :
  k < length (AdjacencyList.m_Adj FAL) ->
  j < length (AdjacencyList.m_Adj FAL !!! k) ->
  AdjacencyList.GetAdjacent FAL (Z.of_nat k) (Z.of_nat j)
  = Ok ((AdjacencyList.m_Adj FAL !!! k) !!! j).
Proof.
  intros Hk Hj. unfold AdjacencyList.GetAdjacent.
  rewrite Flexible_NumAdjacents by done. unfold AdjacencyList.NumNodes.
  split_checks. simpl. by rewrite !Nat2Z.id.
Qed.

Lemma Compact_NumNodes A CAL :
  flattens A CAL -> CompatAdjacencyList.NumNodes CAL = Z.of_nat (length A).
Proof. intros (_ & Hlen & _). unfold CompatAdjacencyList.NumNodes. lia. Qed.

Lemma Compact_NumAdjacents A CAL k :
  flattens A CAL -> k < length A ->
  CompatAdjacencyList.NumAdjacents CAL (Z.of_nat k)
  = Ok (Z.of_nat (length (A !!! k))).
Proof.
  intros Hflat Hk. pose proof Hflat as (Hadj & Hlen & Hidx).
  unfold CompatAdjacencyList.NumAdjacents.
  rewrite (Compact_NumNodes A) by done.
  split_checks. simpl. f_equal.
  replace (Z.to_nat (Z.of_nat k + 1)) with (S k) by lia.
  rewrite Nat2Z.id, !Hidx by lia.
  rewrite concat_take_S, length_app by done. lia.
Qed.

Lemma Compact_GetAdjacent A CAL k j :
  flattens A CAL -> k < length A -> j < length (A !!! k) ->
  CompatAdjacencyList.GetAdjacent CAL (Z.of_nat k) (Z.of_nat j)
  = Ok ((A !!! k) !!! j).
Proof.
  intros Hflat Hk Hj. pose proof Hflat as (Hadj & Hlen & Hidx).
  unfold CompatAdjacencyList.GetAdjacent.
  rewrite (Compact_NumAdjacents A), (Compact_NumNodes A) by done.
  split_checks. simpl. f_equal.
  rewrite Nat2Z.id, Hidx, Hadj by lia.
  rewrite <- Nat2Z.inj_add, Nat2Z.id. by apply concat_row_lookup.
Qed.
End Reads.

Section Binds.

Lemma bind_st_ret {S A B : Type} (a : A) (k : A -> M S B) s :
  (st_ret a ≫= k) s = k a s.
Proof. done. Qed.

Lemma bind_check_Ok {S A B : Type} (r : Result A) (k : A -> M S B) a s :
  r = Ok a -> (check r ≫= k) s = k a s.
Proof. by intros ->. Qed.

Lemma bind_Compat_update_Idx {B : Type} f (k : unit -> M _ B) s :
  (CompatAdjacencyList.update_Idx f ≫= k) s
  = k tt (CompatAdjacencyList.mk (CompatAdjacencyList.m_Adj s)
            (f (CompatAdjacencyList.m_Idx s))).
Proof. done. Qed.

Lemma bind_set_NConnections {B : Type} n (k : unit -> M _ B) s :
  (AdjacencyList.set_NConnections n ≫= k) s
  = k tt (AdjacencyList.mk (AdjacencyList.m_Adj s) n).
Proof. done. Qed.

Lemma bind_set_Adj {B : Type} adj (k : unit -> M _ B) s :
  (AdjacencyList.set_Adj adj ≫= k) s
  = k tt (AdjacencyList.mk adj (AdjacencyList.m_NConnections s)).
Proof. done. Qed.

Lemma bind_update_Adj {B : Type} f (k : unit -> M _ B) s :
  (AdjacencyList.update_Adj f ≫= k) s
  = k tt (AdjacencyList.mk (f (AdjacencyList.m_Adj s))
            (AdjacencyList.m_NConnections s)).
Proof. done. Qed.
End Binds.

Section Conversions.

(** The compact list built from a flexible one holds its rows. *)
Lemma CompatAdjacencyList_copy_Flexible FAL :
  exists CAL,
    CompatAdjacencyList_copy (BaseAdjacencyList.Flexible FAL) = (Ok tt, CAL)
    /\ flattens (AdjacencyList.m_Adj FAL) CAL.
Proof.
  set (A := AdjacencyList.m_Adj FAL). set (n := length A).
  unfold CompatAdjacencyList_copy, CompatAdjacencyList_copy_body.
  cbn [BaseAdjacencyList.NumNodes BaseAdjacencyList.NumAdjacents
       BaseAdjacencyList.GetAdjacent].
  unfold AdjacencyList.NumNodes. fold A n.
  rewrite bind_st_ret, bind_Compat_update_Idx. simpl.
  rewrite resize_nil. replace (Z.to_nat (Z.of_nat n + 1)) with (S n) by lia.
  edestruct (for_range_inv
           (fun k s =>
              CompatAdjacencyList.m_Adj s = concat (take k A)
              /\ length (CompatAdjacencyList.m_Idx s) = S n
              /\ forall i, i <= k ->
                   CompatAdjacencyList.m_Idx s !!! i
                   = Z.of_nat (length (concat (take i A)))))
    as (CAL & Hloop & Hadj & Hlen & Hidx).
  3:{ exists CAL. split; [exact Hloop|].
      rewrite take_ge in Hadj by done. done. }
  - split; [done|]. split; [apply length_replicate|].
    intros i Hi. by replace i with 0 by lia.
  - intros k s Hk (Hadj & Hlen & Hidx).
    rewrite (bind_check_Ok _ _ (Z.of_nat (length (A !!! k))))
      by by apply Flexible_NumAdjacents.
    rewrite bind_Compat_update_Idx, Nat2Z.id.
    set (s1 := CompatAdjacencyList.mk _ _).
    destruct (for_range_inv
                (fun j s =>
                   CompatAdjacencyList.m_Adj s
                   = concat (take k A) ++ take j (A !!! k)
                   /\ CompatAdjacencyList.m_Idx s
                      = CompatAdjacencyList.m_Idx s1)
                (fun j =>
                   x ← check (AdjacencyList.GetAdjacent FAL (Z.of_nat k) j);
                   CompatAdjacencyList.update_Adj (fun adj => adj ++ [x]))
                (length (A !!! k)) s1) as (s2 & Hloop & Hadj2 & Hidx2).
    { split; [|done]. subst s1. simpl. by rewrite Hadj, take_0, app_nil_r. }
    { intros j s' Hj [Hadj' Hidx'].
      rewrite (bind_check_Ok _ _ ((A !!! k) !!! j))
        by by apply Flexible_GetAdjacent.
      eexists. split; [done|]. simpl. split; [|done].
      rewrite Hadj', <- app_assoc. f_equal.
      symmetry. apply take_S_r. by apply list_lookup_lookup_total_lt. }
    exists s2. split; [exact Hloop|].
    rewrite Hadj2, Hidx2, (take_ge (A !!! k)) by lia. subst s1. simpl.
    split; [by rewrite concat_take_S|].
    split; [by rewrite length_insert|].
    intros i Hi.
    replace (Z.to_nat (Z.of_nat k + 1)) with (S k) by lia.
    destruct (decide (i = S k)) as [->|Hne].
    + rewrite list_lookup_total_insert_eq by lia.
      rewrite Hidx, concat_take_S, length_app by done. lia.
    + rewrite list_lookup_total_insert_ne by lia. apply Hidx. lia.
Qed.

(** The flexible list built from a compact one has the rows that the
    compact one holds. *)
Lemma AdjacencyList_copy_Compact A CAL :
  flattens A CAL ->
  AdjacencyList_copy (BaseAdjacencyList.Compact CAL)
  = (Ok tt, AdjacencyList.mk A (Z.of_nat (length (concat A)))).
Proof.
  intros Hflat. pose proof Hflat as (Hadj & Hlen & Hidx).
  set (n := length A) in *.
  unfold AdjacencyList_copy, AdjacencyList_copy_body.
  cbn [BaseAdjacencyList.NumNodes BaseAdjacencyList.NumAdjacents
       BaseAdjacencyList.GetAdjacent BaseAdjacencyList.NumConnections].
  rewrite (Compact_NumNodes A) by done. fold n.
  unfold CompatAdjacencyList.NumConnections. rewrite Hadj.
  rewrite bind_st_ret, bind_set_NConnections, bind_update_Adj. simpl.
  rewrite resize_nil, Nat2Z.id.
  destruct (Z.eqb_spec (Z.of_nat n) 0) as [Hz|Hnz].
  { assert (A = []) as -> by (apply nil_length_inv; lia).
    by replace n with 0 by lia. }
  edestruct (for_range_inv
               (fun k s =>
                  AdjacencyList.m_Adj s = take k A ++ replicate (n - k) []
                  /\ AdjacencyList.m_NConnections s
                     = Z.of_nat (length (concat A))))
    as (FAL & Hloop & Hrows & HNC).
  3:{ rewrite Hloop. f_equal. destruct FAL as [adj NC]. simpl in *.
      rewrite Hrows, HNC, take_ge, Nat.sub_diag by done.
      by rewrite app_nil_r. }
  - split; [|done]. simpl. by rewrite Nat.sub_0_r.
  - intros k s Hk [Hrows HNC].
    rewrite (bind_check_Ok _ _ (Z.of_nat (length (A !!! k))))
      by by apply (Compact_NumAdjacents A).
    edestruct (for_range_inv
                 (fun j s =>
                    AdjacencyList.m_Adj s
                    = take k A ++ take j (A !!! k) :: replicate (n - S k) []
                    /\ AdjacencyList.m_NConnections s
                       = Z.of_nat (length (concat A))))
      as (s2 & Hinner & Hrows2 & HNC2).
    3:{ exists s2. split; [exact Hinner|]. split; [|done].
        rewrite Hrows2, (take_ge (A !!! k)) by lia.
        rewrite (take_S_r A k (A !!! k)) by by apply row_lookup.
        by rewrite <- app_assoc. }
    + split; [|done]. rewrite Hrows, take_0.
      by replace (n - k) with (S (n - S k)) by lia.
    + intros j s' Hj [Hrows' HNC'].
      rewrite (bind_check_Ok _ _ ((A !!! k) !!! j))
        by by apply (Compact_GetAdjacent A).
      eexists. split; [done|]. simpl. split; [|done].
      assert (length (take k A) = k) as Htk by (rewrite length_take; lia).
      rewrite Nat2Z.id, Hrows'.
      rewrite lookup_total_app_r, insert_app_r_alt by lia.
      rewrite Htk, Nat.sub_diag. simpl. do 2 f_equal.
      symmetry. apply take_S_r. by apply list_lookup_lookup_total_lt.
Qed.
End Conversions.

Section CopyOfFlexible.

Lemma bind_assoc {S A B C : Type} (m : M S A) (f : A -> M S B)
    (g : B -> M S C) s :
  ((m ≫= f) ≫= g) s = (m ≫= (fun a => f a ≫= g)) s.
Proof.
  unfold mbind, M_bind, st_bind. destruct (m s) as [[a|e] s']; [|done].
  done.
Qed.

(** What the copy constructor builds from an [AdjacencyList]: every
    row twice over. *)
Lemma AdjacencyList_copy_Flexible FAL :
  AdjacencyList_copy (BaseAdjacencyList.Flexible FAL)
  = (Ok tt,
     AdjacencyList.mk ((fun row => row ++ row) <$> AdjacencyList.m_Adj FAL)
       (AdjacencyList.m_NConnections FAL)).
Proof.
  set (A := AdjacencyList.m_Adj FAL). set (n := length A).
  unfold AdjacencyList_copy, AdjacencyList_copy_body.
  cbn [BaseAdjacencyList.NumNodes BaseAdjacencyList.NumAdjacents
       BaseAdjacencyList.GetAdjacent BaseAdjacencyList.NumConnections].
  unfold AdjacencyList.NumNodes, AdjacencyList.NumConnections. fold A n.
  rewrite bind_assoc, bind_set_Adj, bind_set_NConnections,
    bind_set_NConnections, bind_update_Adj. simpl.
  rewrite Nat2Z.id. subst n. rewrite resize_all. set (n := length A).
  destruct (Z.eqb_spec (Z.of_nat n) 0) as [Hz|Hnz].
  { assert (A = []) as -> by (apply nil_length_inv; lia). done. }
  edestruct (for_range_inv
               (fun k s =>
                  AdjacencyList.m_Adj s
                  = ((fun row => row ++ row) <$> take k A) ++ drop k A
                  /\ AdjacencyList.m_NConnections s
                     = AdjacencyList.m_NConnections FAL))
    as (copy & Hloop & Hrows & HNC).
  3:{ rewrite Hloop. f_equal. destruct copy as [adj NC]. simpl in *.
      rewrite Hrows, HNC, take_ge, drop_ge by done.
      by rewrite app_nil_r. }
  - split; [|done]. simpl. by rewrite drop_0.
  - intros k s Hk [Hrows HNC].
    rewrite (bind_check_Ok _ _ (Z.of_nat (length (A !!! k))))
      by by apply Flexible_NumAdjacents.
    assert (length ((fun row => row ++ row) <$> take k A) = k) as Htk.
    { rewrite length_fmap, length_take. lia. }
    edestruct (for_range_inv
                 (fun j s =>
                    AdjacencyList.m_Adj s
                    = ((fun row => row ++ row) <$> take k A)
                      ++ (A !!! k ++ take j (A !!! k)) :: drop (S k) A
                    /\ AdjacencyList.m_NConnections s
                       = AdjacencyList.m_NConnections FAL))
      as (s2 & Hinner & Hrows2 & HNC2).
    3:{ exists s2. split; [exact Hinner|]. split; [|done].
        rewrite Hrows2, (take_ge (A !!! k)) by lia.
        rewrite (take_S_r A k (A !!! k)) by by apply row_lookup.
        by rewrite fmap_app, <- app_assoc. }
    + split; [|done]. rewrite Hrows, take_0, app_nil_r.
      by rewrite (drop_S A (A !!! k) k) by by apply row_lookup.
    + intros j s' Hj [Hrows' HNC'].
      rewrite (bind_check_Ok _ _ ((A !!! k) !!! j))
        by by apply Flexible_GetAdjacent.
      eexists. split; [done|]. simpl. split; [|done].
      rewrite Nat2Z.id, Hrows'.
      rewrite lookup_total_app_r, insert_app_r_alt by lia.
      rewrite Htk, Nat.sub_diag. simpl. do 2 f_equal.
      rewrite <- app_assoc. f_equal.
      symmetry. apply take_S_r. by apply list_lookup_lookup_total_lt.
Qed.
End CopyOfFlexible.

(** [operator=] runs the same body on the rows that its target has:
    from a compact source, whose rows it does not copy first, it appends
    to them. *)
Example assign_appends :
  let CAL := CompatAdjacencyList.mk [5; 2; 5]%Z [0; 2; 3]%Z in
  AdjacencyList_assign (BaseAdjacencyList.Compact CAL)
    (AdjacencyList.mk [[1]; [2]]%Z 2)
  = (Ok tt, AdjacencyList.mk [[1; 5; 2]; [2; 5]]%Z 3).
Proof. vm_compute. reflexivity. Qed.

(** ** Theorems: the adjacency lists *)

(** C5.  Code defect: the constructor from a [BaseAdjacencyList] does not
    return after the copy of the members it makes when the source is an
    [AdjacencyList]; the walk of the abstract interface that follows
    appends every adjacent once more.  The copy of a list whose node 0
    has the one adjacent 7 has it twice. *)
Theorem copy_of_AdjacencyList_doubles :
  let FAL := (AdjacencyList.AddAdjacent 0 7 (AdjacencyList.ctor 2)).2 in
  exists copy,
    AdjacencyList_copy (BaseAdjacencyList.Flexible FAL) = (Ok tt, copy)
    /\ AdjacencyList.m_Adj FAL = [[7%Z]; []]
    /\ AdjacencyList.m_Adj copy = [[7; 7]%Z; []]
    /\ AdjacencyList.NumAdjacents FAL 0 = Ok 1%Z
    /\ AdjacencyList.NumAdjacents copy 0 = Ok 2%Z
    /\ AdjacencyList.GetAdjacent FAL 0 1 = Throw OutOfBoundError
    /\ AdjacencyList.GetAdjacent copy 0 1 = Ok 7%Z.
Proof. eexists. vm_compute. done. Qed.

(** C6.  A compact list built from a flexible one, and a flexible list
    built in turn from the compact one: both constructions succeed, and
    the second flexible list has the nodes of the first and, node by
    node, the same adjacents in the same order. *)
Theorem round_trip_through_compact (FAL : AdjacencyList.t) :
  exists CAL FAL',
    CompatAdjacencyList_copy (BaseAdjacencyList.Flexible FAL) = (Ok tt, CAL)
    /\ AdjacencyList_copy (BaseAdjacencyList.Compact CAL) = (Ok tt, FAL')
    /\ AdjacencyList.NumNodes FAL' = AdjacencyList.NumNodes FAL
    /\ forall i,
         AdjacencyList.NumAdjacents FAL' i = AdjacencyList.NumAdjacents FAL i
         /\ forall idx,
              AdjacencyList.GetAdjacent FAL' i idx
              = AdjacencyList.GetAdjacent FAL i idx.
Proof.
  destruct (CompatAdjacencyList_copy_Flexible FAL) as (CAL & Hcopy & Hflat).
  exists CAL. eexists. split; [exact Hcopy|].
  split; [by apply AdjacencyList_copy_Compact|].
  done.
Qed.

(** C7.  Code defect: [m_NConnections] is set by the constructors and
    by no mutation operation.  After [AddAdjacent(0, 5)] on a fresh list
    of one node, [NumConnections()] is 0 and the lists hold one
    adjacent. *)
Theorem NumConnections_not_maintained :
  let this := (AdjacencyList.AddAdjacent 0 5 (AdjacencyList.ctor 1)).2 in
  AdjacencyList.AddAdjacent 0 5 (AdjacencyList.ctor 1) = (Ok tt, this)
  /\ AdjacencyList.NumAdjacents this 0 = Ok 1%Z
  /\ sum_NumAdjacents this = 1%Z
  /\ AdjacencyList.NumConnections this = 0%Z.
Proof. vm_compute. done. Qed.

(** C8, as it stands, fails for a list of connections that names the
    node [INT_MAX]: [c.first + 1] wraps, no node is made, and the
    constructor returns a list without nodes in which the connection,
    given once, is not stored. *)
Lemma bulk_constructor_skips_INT_MAX :
  let Connections := [(INT_MAX, 5%Z)] in
  exists built,
    AdjacencyList.ctor_connections Connections = Some built
    /\ AdjacencyList.NumNodes built = 0%Z
    /\ AdjacencyList.NumConnections built = 1%Z
    /\ ~ (forall c, c ∈ Connections ->
            (c.1 < AdjacencyList.NumNodes built)%Z).
Proof.
  eexists. split; [vm_compute; reflexivity|].
  split; [reflexivity|]. split; [reflexivity|].
  intros Hall. specialize (Hall (INT_MAX, 5%Z) (list_elem_of_here _ _)).
  vm_compute in Hall. discriminate.
Qed.



(** C9, as it stands, fails at the upper end of the range: on a node
    whose list is empty, [idx = 0 = NumAdjacents(i)] is refused. *)
Lemma InsertAdjacent_refuses_end :
  let this := AdjacencyList.ctor 1 in
  AdjacencyList.NumAdjacents this 0 = Ok 0%Z
  /\ find (AdjacencyList.m_Adj this !!! 0%nat) 5 = None
  /\ AdjacencyList.InsertAdjacent 0 5 0 this = (Throw OutOfBoundError, this).
Proof. vm_compute. repeat split. Qed.

(** C9 (amended).  [InsertAdjacent(i, j, idx)] succeeds for every valid
    node [i], every [idx] with [0 <= idx < NumAdjacents(i)] and every [j]
    not adjacent to [i] yet, putting [j] at position [idx] before the
    entries from [idx] on; it throws [OutOfBoundError] exactly when [i]
    or [idx] is outside these ranges, and [AssertionError], leaving the
    list as it was, when they are inside and [j] is adjacent already. *)
Theorem InsertAdjacent_outcomes this i j idx :
  let row := AdjacencyList.m_Adj this !!! Z.to_nat i in
  (valid_position this i idx -> j ∉ row ->
     AdjacencyList.InsertAdjacent i j idx this =
       (Ok tt,
        AdjacencyList.mk
          (<[Z.to_nat i := take (Z.to_nat idx) row ++ j :: drop (Z.to_nat idx) row]>
             (AdjacencyList.m_Adj this))
          (AdjacencyList.m_NConnections this)))
  /\ ((AdjacencyList.InsertAdjacent i j idx this).1 = Throw OutOfBoundError
      <-> ~ valid_position this i idx)
  /\ (valid_position this i idx -> j ∈ row ->
        AdjacencyList.InsertAdjacent i j idx this = (Throw AssertionError, this)).
Proof.
  intros row. rewrite InsertAdjacent_spec. fold row.
  split; [|split].
  - intros Hv Hj. by rewrite !bool_decide_eq_true_2.
  - case_bool_decide as Hv.
    + split; [|done]. by case_bool_decide.
    + done.
  - intros Hv Hj. rewrite bool_decide_eq_true_2 by done.
    rewrite bool_decide_eq_false_2; [done|]. by intros [].
Qed.

Lemma InsertAdjacent_outcomes_witness :
  AdjacencyList.InsertAdjacent 1 9 1 (AdjacencyList.mk [[]; [4; 5]]%Z 2)
  = (Ok tt, AdjacencyList.mk [[]; [4; 9; 5]]%Z 2)
  /\ (AdjacencyList.InsertAdjacent 1 9 2 (AdjacencyList.mk [[]; [4; 5]]%Z 2)).1
     = Throw OutOfBoundError
  /\ AdjacencyList.InsertAdjacent 1 5 0 (AdjacencyList.mk [[]; [4; 5]]%Z 2)
     = (Throw AssertionError, AdjacencyList.mk [[]; [4; 5]]%Z 2).
Proof.
  split; [|split].
  - apply (proj1 (InsertAdjacent_outcomes (AdjacencyList.mk [[]; [4; 5]]%Z 2) 1 9 1)).
    + unfold valid_position, AdjacencyList.NumNodes. simpl. lia.
    + simpl. compute_done.
  - apply (proj1 (proj2 (InsertAdjacent_outcomes
                           (AdjacencyList.mk [[]; [4; 5]]%Z 2) 1 9 2))).
    unfold valid_position, AdjacencyList.NumNodes. simpl. lia.
  - apply (proj2 (proj2 (InsertAdjacent_outcomes
                           (AdjacencyList.mk [[]; [4; 5]]%Z 2) 1 5 0))).
    + unfold valid_position, AdjacencyList.NumNodes. simpl. lia.
    + simpl. compute_done.
Defined.

(** C10.  No mutation operation changes what [NumConnections()]
    returns, whether it succeeds or throws, and also when it changes the
    number of adjacents stored: [AddAdjacent(0, 5)] on a fresh list of
    one node stores one adjacent and leaves the count at 0. *)
Theorem mutation_keeps_NumConnections :
  (forall op this,
     AdjacencyList.NumConnections (mutate op this).2
     = AdjacencyList.NumConnections this)
  /\ (forall ops this,
        AdjacencyList.NumConnections
          (for_each ops (fun op => try_catch (mutate op)) this).2
        = AdjacencyList.NumConnections this)
  /\ (let this := AdjacencyList.ctor 1 in
      let this' := (mutate (DoAddAdjacent 0 5) this).2 in
      sum_NumAdjacents this = 0%Z /\ sum_NumAdjacents this' = 1%Z
      /\ AdjacencyList.NumConnections this' = 0%Z).
Proof.
  split; [|split].
  - intros op this. apply mutate_NConnections.
  - intros ops. induction ops as [|op ops IH]; intros this; [done|].
    simpl. unfold mbind, M_bind, st_bind, try_catch. simpl.
    rewrite IH. apply mutate_NConnections.
  - vm_compute. done.
Qed.

(** ** Further properties: the heap *)

Section HeapReads.
Import MinHeap.

Lemma GetKey_alt h e :
  GetKey h e
  = if decide (e < Size h) then Ok (m_Sign h * stored_key h e)%Z
    else Throw OutOfBoundError.
Proof.
  unfold GetKey, CUTCheckLess, stored_key.
  destruct (Z.leb_spec (Z.of_nat (Size h)) (Z.of_nat e)); case_decide; done || lia.
Qed.

Lemma GetKey_same_keys h h' e :
  same_keys h h' -> GetKey h' e = GetKey h e.
Proof.
  intros (Hn & Hs & Hk). rewrite !GetKey_alt, Hn, Hs.
  case_decide; [|done]. by rewrite Hk.
Qed.

Lemma GetKey_add_key_other h e d e' :
  wf h -> e < Size h -> e' <> e ->
  GetKey (add_key h (m_Perm h !!! e) d) e' = GetKey h e'.
Proof.
  intros Hwf He Hne. rewrite !GetKey_alt, Size_add_key.
  case_decide; [|done].
  rewrite stored_key_add_key by done. by rewrite decide_False.
Qed.

End HeapReads.

(** The keys of a heap as constructed, read through [GetKey]. *)
Lemma GetKey_ctor_lookup (Keys : list Z) (IsMaxHeap : bool) (e : nat) :
  MinHeap.GetKey (MinHeap.ctor Keys IsMaxHeap) e
  = match Keys !! e with
    | Some k => Ok k
    | None => Throw OutOfBoundError
    end.
Proof.
  destruct (ctor_inv Keys IsMaxHeap) as (Hwf & _ & [Hn Hk] & Hs).
  destruct (Keys !! e) as [k|] eqn:He.
  - apply GetKey_stored. split.
    + apply lookup_lt_Some in He. lia.
    + rewrite (Hk _ _ He), Hs. destruct IsMaxHeap; lia.
  - apply lookup_ge_None in He. unfold MinHeap.GetKey, CUTCheckLess.
    destruct (Z.leb_spec (Z.of_nat (MinHeap.Size (MinHeap.ctor Keys IsMaxHeap)))
                (Z.of_nat e)); [done|lia].
Qed.

(** X1.  [GetKey] on a heap as constructed gives back, for every
    element, the key it was constructed with, in both modes, and throws
    [OutOfBoundError] for every index that is not an element. *)
Theorem GetKey_ctor (Keys : list Z) (IsMaxHeap : bool) (e : nat) :
  MinHeap.GetKey (MinHeap.ctor Keys IsMaxHeap) e
  = match Keys !! e with
    | Some k => Ok k
    | None => Throw OutOfBoundError
    end.
Proof. apply GetKey_ctor_lookup. Qed.



(** X3.  A call of [DecreaseKey] or [IncreaseKey] on element [e] that
    returns changes neither the number of elements nor the key of any
    other element, whatever the amount. *)
Theorem key_update_frame h e delta fuel h' :
  reachable (fun _ => True) h ->
  MinHeap.DecreaseKey fuel h e delta = Some (Ok h')
  \/ MinHeap.IncreaseKey fuel h e delta = Some (Ok h') ->
  MinHeap.Size h' = MinHeap.Size h
  /\ forall e', e' <> e -> MinHeap.GetKey h' e' = MinHeap.GetKey h e'.
Proof.
  intros Hwf%reachable_wf [Hret|Hret].
  - apply DecreaseKey_keeps in Hret as (He & Hwf' & Hsame); [|done].
    split.
    + destruct Hsame as (-> & _). apply Size_add_key.
    + intros e' Hne. rewrite (GetKey_same_keys _ _ _ Hsame).
      by apply GetKey_add_key_other.
  - apply IncreaseKey_keeps in Hret as (He & Hwf' & Hsame); [|done].
    split.
    + destruct Hsame as (-> & _). apply Size_add_key.
    + intros e' Hne. rewrite (GetKey_same_keys _ _ _ Hsame).
      by apply GetKey_add_key_other.
Qed.

Lemma key_update_frame_witness :
  MinHeap.Size (MinHeap.mk [((-3)%Z, 2); (1%Z, 1); (3%Z, 0)] [2; 1; 0] 1%Z)
  = MinHeap.Size (MinHeap.ctor [3; 1; 2]%Z false)
  /\ forall e', e' <> 2 ->
       MinHeap.GetKey (MinHeap.mk [((-3)%Z, 2); (1%Z, 1); (3%Z, 0)] [2; 1; 0] 1%Z) e'
       = MinHeap.GetKey (MinHeap.ctor [3; 1; 2]%Z false) e'.
Proof.
  apply (key_update_frame (MinHeap.ctor [3; 1; 2]%Z false) 2 5 0).
  - apply reach_ctor.
  - left. vm_compute. reflexivity.
Defined.

Section SiftDown.
Import MinHeap.

Lemma MoveDown_loop_mono fuel :
  forall fuel' h v h',
    MoveDown_loop fuel h v = Some h' -> fuel <= fuel' ->
    MoveDown_loop fuel' h v = Some h'.
Proof.
  induction fuel as [|fuel IH]; intros fuel' h v h' Hrun Hle; [done|].
  destruct fuel' as [|fuel']; [lia|].
  rewrite MoveDown_loop_S in Hrun |- *.
  repeat case_match; try done. apply IH; [done|lia].
Qed.





End SiftDown.



Section Extremes.
Import MinHeap.

Lemma MoveUp_loop_to_root v :
  forall h, v < Size h ->
    (forall w, w < Size h -> (key_at h v <= key_at h w)%Z) ->
    elem_at (MoveUp_loop h v) 0 = elem_at h v
    /\ key_at (MoveUp_loop h v) 0 = key_at h v.
Proof.
  induction v as [v IH] using lt_wf_ind. intros h Hv Hmin.
  destruct v as [|n]; [by rewrite MoveUp_loop_equation_1|].
  rewrite MoveUp_loop_equation_2.
  assert (Nat.div2 (S n) < S n) as Hp by (div2_facts; lia).
  destruct (Z.ltb_spec (key_at h (Nat.div2 (S n))) (key_at h (S n))) as [Hlt|_].
  { specialize (Hmin (Nat.div2 (S n)) ltac:(lia)). lia. }
  destruct (IH _ Hp (swap_nodes h (Nat.div2 (S n)) (S n))) as [He Hk].
  - rewrite Size_swap_nodes. lia.
  - intros w Hw. rewrite Size_swap_nodes in Hw.
    rewrite !key_at_swap_nodes by lia.
    pose proof (Hmin w Hw). pose proof (Hmin (Nat.div2 (S n)) ltac:(lia)).
    repeat case_decide; lia.
  - rewrite He, Hk, elem_at_swap_nodes, key_at_swap_nodes by lia.
    repeat case_decide; done || lia.
Qed.

Lemma key_at_holds_keys Keys h w :
  wf h -> holds_keys Keys h -> w < Size h ->
  exists k, k ∈ Keys /\ key_at h w = (m_Sign h * k)%Z.
Proof.
  intros (_ & _ & Hback & _) [Hn Hk] Hw. destruct (Hback w Hw) as [He Hp].
  assert (is_Some (Keys !! elem_at h w)) as [k Hlook].
  { apply lookup_lt_is_Some. lia. }
  exists k. split; [by eapply list_elem_of_lookup_2|].
  rewrite <- (Hk _ _ Hlook). unfold stored_key. by rewrite Hp.
Qed.
End Extremes.

(** X5.  [MoveUp] exchanges a node with its parent also when their keys
    are equal, so a tie goes to the element inserted last: when the last
    key given to the constructor is at most every other key (at least,
    for a max-heap), [FindMin] returns the last element. *)
Theorem FindMin_last_extremum (Keys : list Z) (k : Z) (IsMaxHeap : bool) :
  (forall k', k' ∈ Keys -> if IsMaxHeap then (k' <= k)%Z else (k <= k')%Z) ->
  MinHeap.FindMin (MinHeap.ctor (Keys ++ [k]) IsMaxHeap) = Ok (k, length Keys).
Proof.
  intros Hext. unfold MinHeap.ctor. rewrite fold_left_app. simpl.
  fold (MinHeap.ctor Keys IsMaxHeap).
  destruct (ctor_inv Keys IsMaxHeap) as (Hwf & Hord & Hkeys & Hs).
  set (h := MinHeap.ctor Keys IsMaxHeap) in *.
  rewrite Insert_unfold by done.
  pose proof Hkeys as [Hn _].
  destruct (MoveUp_loop_to_root (MinHeap.Size h) (appended h k)) as [He Hk].
  - rewrite Size_appended. lia.
  - intros w Hw. rewrite Size_appended in Hw. rewrite !key_at_appended.
    rewrite (decide_False (P := MinHeap.Size h < MinHeap.Size h)) by lia.
    rewrite decide_True by done.
    case_decide as Hlt; [|rewrite decide_True by lia; lia].
    destruct (key_at_holds_keys Keys h w Hwf Hkeys Hlt) as (k' & Hin & ->).
    specialize (Hext k' Hin). rewrite Hs. destruct IsMaxHeap; lia.
  - destruct (MoveUp_loop_keeps (MinHeap.Size h) (appended h k)) as [_ (Hsz & Hsg & _)].
    { by apply wf_appended. }
    { rewrite Size_appended. lia. }
    unfold MinHeap.FindMin, CUTCheckGreater. rewrite Hsz, Size_appended.
    destruct (Z.leb_spec (Z.of_nat (S (MinHeap.Size h))) 0); [lia|]. simpl.
    rewrite He, Hk, Hsg. rewrite elem_at_appended, key_at_appended by lia.
    repeat case_decide; try lia.
    simpl. rewrite Hs, Hn. do 2 f_equal. destruct IsMaxHeap; lia.
Qed.

Lemma FindMin_last_extremum_witness :
  MinHeap.FindMin (MinHeap.ctor ([4; 4; 7] ++ [4])%Z false) = Ok (4%Z, 3).
Proof.
  apply (FindMin_last_extremum [4; 4; 7]%Z 4 false).
  intros k' Hk'. repeat (apply elem_of_cons in Hk' as [->|Hk']; [lia|]).
  by apply elem_of_nil in Hk'.
Defined.





(** ** Further properties: [AdjacencyList] *)

Section AdjacencySpecs.
Import AdjacencyList.

Lemma NumAdjacents_spec this i :
  NumAdjacents this i =
    if bool_decide (0 <= i < NumNodes this)%Z
    then Ok (Z.of_nat (length (m_Adj this !!! Z.to_nat i)))
    else Throw OutOfBoundError.
Proof.
  unfold NumAdjacents. split_checks; simpl;
    try (rewrite bool_decide_eq_false_2 by lia; done).
  by rewrite bool_decide_eq_true_2 by lia.
Qed.

Lemma GetAdjacent_spec this i idx :
  GetAdjacent this i idx =
    if bool_decide (valid_position this i idx)
    then Ok ((m_Adj this !!! Z.to_nat i) !!! Z.to_nat idx)
    else Throw OutOfBoundError.
Proof.
  unfold GetAdjacent, valid_position, NumAdjacents. split_checks; simpl;
    try (rewrite bool_decide_eq_false_2 by lia; done).
  by rewrite bool_decide_eq_true_2 by lia.
Qed.

Lemma InsertNode_spec this i :
  InsertNode i this =
    if bool_decide (0 <= i < NumNodes this)%Z
    then (Ok tt, mk (take (Z.to_nat i) (m_Adj this)
                     ++ [] :: drop (Z.to_nat i) (m_Adj this))
                   (m_NConnections this))
    else (Throw OutOfBoundError, this).
Proof.
  unfold InsertNode, set_Adj, emplace. split_checks; simpl;
    try (rewrite bool_decide_eq_false_2 by lia; done).
  by rewrite bool_decide_eq_true_2 by lia.
Qed.

Lemma RemoveNode_spec this i :
  RemoveNode i this =
    if bool_decide (0 <= i < NumNodes this)%Z
    then (Ok tt, mk (delete (Z.to_nat i) (m_Adj this)) (m_NConnections this))
    else (Throw OutOfBoundError, this).
Proof.
  unfold RemoveNode, set_Adj. split_checks; simpl;
    try (rewrite bool_decide_eq_false_2 by lia; done).
  by rewrite bool_decide_eq_true_2 by lia.
Qed.

Lemma SwapNodes_spec this i j :
  SwapNodes i j this =
    if bool_decide ((0 <= i < NumNodes this) /\ (0 <= j < NumNodes this))%Z
    then (Ok tt, mk (swap (m_Adj this) (Z.to_nat i) (Z.to_nat j))
                   (m_NConnections this))
    else (Throw OutOfBoundError, this).
Proof.
  unfold SwapNodes, set_Adj. split_checks; simpl;
    try (rewrite bool_decide_eq_false_2 by lia; done).
  by rewrite bool_decide_eq_true_2 by lia.
Qed.

Lemma RemoveAdjacent_spec this i idx :
  let row := m_Adj this !!! Z.to_nat i in
  RemoveAdjacent i idx this =
    if bool_decide (valid_position this i idx)
    then (Ok tt, mk (<[Z.to_nat i := delete (Z.to_nat idx) row]> (m_Adj this))
                   (m_NConnections this))
    else (Throw OutOfBoundError, this).
Proof.
  intros row. subst row. unfold RemoveAdjacent, valid_position, NumAdjacents, set_Adj.
  split_checks; simpl;
    try (rewrite bool_decide_eq_false_2 by lia; done).
  by rewrite bool_decide_eq_true_2 by lia.
Qed.

Lemma UpdateAdjacent_spec this i j idx :
  let row := m_Adj this !!! Z.to_nat i in
  UpdateAdjacent i j idx this =
    if bool_decide (valid_position this i idx) then
      if bool_decide (row !!! Z.to_nat idx = j) then (Ok tt, this)
      else if bool_decide (j ∉ row) then
        (Ok tt, mk (<[Z.to_nat i := <[Z.to_nat idx := j]> row]> (m_Adj this))
                  (m_NConnections this))
      else (Throw AssertionError, this)
    else (Throw OutOfBoundError, this).
Proof.
  intros row. subst row. unfold UpdateAdjacent, valid_position, NumAdjacents, set_Adj.
  rewrite is_end_find.
  split_checks; simpl;
    try (rewrite bool_decide_eq_false_2 by lia; done).
  rewrite (bool_decide_eq_true_2 (_ /\ _)) by lia.
  destruct (Z.eqb_spec ((m_Adj this !!! Z.to_nat i) !!! Z.to_nat idx) j) as [Heq|Hne].
  - by rewrite bool_decide_eq_true_2.
  - rewrite (bool_decide_eq_false_2 (_ = _)) by done.
    split_checks. by case_bool_decide.
Qed.

Lemma ReplaceAdjacent_spec this i j k :
  let row := m_Adj this !!! Z.to_nat i in
  ReplaceAdjacent i j k this =
    if bool_decide (0 <= i < NumNodes this)%Z then
      if bool_decide (k ∉ row) then
        match find row j with
        | Some pos =>
            (Ok tt, mk (<[Z.to_nat i := <[pos := k]> row]> (m_Adj this))
                      (m_NConnections this))
        | None => (Throw AssertionError, this)
        end
      else (Throw AssertionError, this)
    else (Throw OutOfBoundError, this).
Proof.
  intros row. subst row. unfold ReplaceAdjacent, set_Adj.
  rewrite (is_end_find _ k).
  split_checks; simpl;
    try (rewrite bool_decide_eq_false_2 by lia; done).
  rewrite (bool_decide_eq_true_2 (_ /\ _)) by lia.
  case_bool_decide; simpl; [|done].
  by destruct (find _ j).
Qed.

Lemma AddNode_spec this :
  AddNode this = (Ok tt, mk (m_Adj this ++ [[]]) (m_NConnections this)).
Proof. done. Qed.

Lemma find_Some row j pos :
  find row j = Some pos ->
  row !! pos = Some j /\ forall p, p < pos -> row !!! p <> j.
Proof.
  revert pos. induction row as [|y row IH]; intros pos; simpl; [done|].
  destruct (Z.eqb_spec y j) as [->|Hne].
  - intros [= <-]. split; [done|]. lia.
  - destruct (find row j) as [p'|] eqn:Hf; simpl; [|done].
    intros [= <-]. destruct (IH p' eq_refl) as [Hl Hbefore].
    split; [done|]. intros [|p] Hp; [done|]. simpl. apply Hbefore. lia.
Qed.
End AdjacencySpecs.

(** X8.  A mutation operation that throws leaves the list as it was:
    each of the nine operations makes all its checks before it writes. *)
Theorem mutation_throws_unchanged op this e :
  (mutate op this).1 = Throw e -> (mutate op this).2 = this.
Proof.
  destruct op; simpl;
    rewrite ?AddNode_spec, ?InsertNode_spec, ?SwapNodes_spec,
      ?RemoveNode_spec, ?AddAdjacent_spec, ?InsertAdjacent_spec,
      ?UpdateAdjacent_spec, ?ReplaceAdjacent_spec, ?RemoveAdjacent_spec;
    repeat case_bool_decide; try done.
  by destruct (find _ _).
Qed.

Lemma mutation_throws_unchanged_witness :
  (mutate (DoAddAdjacent 0 5) (AdjacencyList.mk [[5]]%Z 1)).2
  = AdjacencyList.mk [[5]]%Z 1.
Proof.
  apply (mutation_throws_unchanged (DoAddAdjacent 0 5)
           (AdjacencyList.mk [[5]]%Z 1) AssertionError).
  vm_compute. reflexivity.
Defined.
Section UniqueRows.
Import AdjacencyList.

Lemma elem_of_insert_inv (row : list Z) idx j x :
  x ∈ <[idx := j]> row -> x = j \/ x ∈ row.
Proof.
  revert idx. induction row as [|y row IH]; intros idx; simpl; [by right|].
  destruct idx as [|idx]; simpl.
  - rewrite !elem_of_cons. tauto.
  - rewrite !elem_of_cons. intros [->|Hin]; [tauto|].
    destruct (IH _ Hin); tauto.
Qed.

Lemma NoDup_insert_fresh (row : list Z) idx j :
  NoDup row -> j ∉ row -> NoDup (<[idx := j]> row).
Proof.
  intros Hnd. revert idx.
  induction Hnd as [|y row Hy Hnd IH]; intros idx Hj;
    [simpl; constructor|].
  apply not_elem_of_cons in Hj as [Hne Hj].
  destruct idx as [|idx]; simpl.
  - by constructor.
  - constructor; [|by apply IH].
    intros Hin. by destruct (elem_of_insert_inv _ _ _ _ Hin) as [->|].
Qed.

Lemma NoDup_emplace_fresh (row : list Z) idx j :
  NoDup row -> j ∉ row -> NoDup (take idx row ++ j :: drop idx row).
Proof.
  intros Hnd Hj. rewrite <- (take_drop idx row) in Hnd, Hj.
  apply NoDup_app in Hnd as (H1 & H2 & H3).
  rewrite elem_of_app in Hj.
  apply NoDup_app. split; [done|]. split.
  - intros x Hx. rewrite elem_of_cons. intros [->|Hin]; [tauto|].
    by apply (H2 x).
  - constructor; [tauto|done].
Qed.

Lemma NoDup_row (rows : list (list Z)) i :
  Forall NoDup rows -> NoDup (rows !!! i).
Proof.
  intros Hall. rewrite list_lookup_total_alt.
  destruct (rows !! i) as [row|] eqn:Hrow; simpl.
  - by eapply Forall_lookup_1.
  - constructor.
Qed.

Lemma mutate_rows_unique op this :
  Forall NoDup (m_Adj this) -> Forall NoDup (m_Adj (mutate op this).2).
Proof.
  intros Hall. pose proof (fun i => NoDup_row (m_Adj this) i Hall) as Hrow.
  destruct op; simpl;
    rewrite ?AddNode_spec, ?InsertNode_spec, ?SwapNodes_spec,
      ?RemoveNode_spec, ?AddAdjacent_spec, ?InsertAdjacent_spec,
      ?UpdateAdjacent_spec, ?ReplaceAdjacent_spec, ?RemoveAdjacent_spec;
    repeat case_bool_decide; simpl; try done.
  - apply Forall_app. split; [done|]. repeat constructor.
  - apply Forall_app. split; [by apply Forall_take|].
    constructor; [constructor|by apply Forall_drop].
  - unfold swap. by repeat apply Forall_insert.
  - by apply Forall_delete.
  - apply Forall_insert; [done|]. apply NoDup_app.
    split; [done|]. split; [|apply NoDup_singleton].
    intros x Hx. rewrite list_elem_of_singleton. by intros ->.
  - apply Forall_insert; [done|]. by apply NoDup_emplace_fresh.
  - apply Forall_insert; [done|]. by apply NoDup_insert_fresh.
  - destruct (find _ _); simpl; [|done].
    apply Forall_insert; [done|]. by apply NoDup_insert_fresh.
  - apply Forall_insert; [done|].
    eapply sublist_NoDup; [apply Hrow|apply sublist_delete].
Qed.

Lemma adj_reachable_rows_unique this :
  adj_reachable this -> Forall NoDup (m_Adj this).
Proof.
  induction 1 as [N|Connections this Hctor|op this _ IH].
  - simpl. apply Forall_replicate. constructor.
  - unfold ctor_connections in Hctor.
    destruct (_ =? _)%Z.
    { injection Hctor as <-. constructor. }
    destruct (count_connections _ _); simpl in Hctor; [|done].
    injection Hctor as <-. rewrite for_each_try_catch. simpl.
    match goal with
    | |- context [fold_left _ _ ?s0] =>
        assert (Forall NoDup (m_Adj s0)) as Hinit
          by (apply Forall_replicate; constructor);
        generalize dependent s0
    end.
    induction Connections as [|c cs IHcs]; intros s0 Hinit; [done|].
    simpl. apply IHcs.
    by apply (mutate_rows_unique (DoAddAdjacent c.1 c.2)).
  - by apply mutate_rows_unique.
Qed.
End UniqueRows.

(** X9.  No node of a list that was built by the constructors and the
    mutation operations has the same adjacent at two positions. *)
Theorem adjacents_never_repeat this i idx idx' x :
  adj_reachable this ->
  AdjacencyList.GetAdjacent this i idx = Ok x ->
  AdjacencyList.GetAdjacent this i idx' = Ok x ->
  idx = idx'.
Proof.
  intros Hreach. rewrite !GetAdjacent_spec.
  repeat case_bool_decide; try done.
  intros [= H1] [= H2].
  match goal with
  | Hv : valid_position _ _ idx, Hv' : valid_position _ _ idx' |- _ =>
      destruct Hv as [Hi Hidx]; destruct Hv' as [_ Hidx']
  end.
  pose proof (NoDup_row _ (Z.to_nat i) (adj_reachable_rows_unique _ Hreach))
    as Hnd.
  assert (Z.to_nat idx = Z.to_nat idx'); [|lia].
  eapply NoDup_lookup; [exact Hnd| |].
  - rewrite list_lookup_lookup_total_lt by lia. by rewrite H1.
  - rewrite list_lookup_lookup_total_lt by lia. by rewrite H2.
Qed.

Lemma adjacents_never_repeat_witness :
  let this := (mutate (DoInsertAdjacent 0 7 0)
                 (mutate (DoAddAdjacent 0 5) (AdjacencyList.ctor 1)).2).2 in
  AdjacencyList.GetAdjacent this 0 1 = Ok 5%Z /\ 1%Z = 1%Z.
Proof.
  intros this. split; [reflexivity|].
  apply (adjacents_never_repeat this 0 1 1 5).
  - do 2 apply adj_reach_mutate. apply adj_reach_ctor.
  - reflexivity.
  - reflexivity.
Defined.
Section NodeOperations.
Import AdjacencyList.

(** Two reads agree when they find the same row. *)
Lemma reads_ext this this' k k' :
  ((0 <= k < NumNodes this)%Z <-> (0 <= k' < NumNodes this')%Z) ->
  ((0 <= k < NumNodes this)%Z ->
     m_Adj this !!! Z.to_nat k = m_Adj this' !!! Z.to_nat k') ->
  NumAdjacents this k = NumAdjacents this' k'
  /\ forall idx, GetAdjacent this k idx = GetAdjacent this' k' idx.
Proof.
  intros Hiff Hrow. split; [|intros idx].
  - rewrite !NumAdjacents_spec. repeat case_bool_decide; try tauto.
    by rewrite Hrow.
  - rewrite !GetAdjacent_spec. unfold valid_position.
    destruct (decide (0 <= k < NumNodes this)%Z) as [Hk|Hk].
    + rewrite Hrow by done. repeat case_bool_decide; try done; tauto.
    + rewrite !bool_decide_eq_false_2 by tauto. done.
Qed.

Lemma swap_swap {A : Type} `{Inhabited A} (l : list A) i j :
  i < length l -> j < length l -> swap (swap l i j) i j = l.
Proof.
  intros Hi Hj. apply (list_eq_same_length _ _ (length l));
    rewrite ?swap_length; try done.
  intros k x y Hk Hx Hy.
  apply list_lookup_total_correct in Hx, Hy. subst x y.
  rewrite !swap_lookup by (rewrite ?swap_length; lia).
  repeat case_decide; subst; congruence.
Qed.
End NodeOperations.

(** X10.  [RemoveNode(i)], when it returns, leaves one node less; the
    nodes before [i] keep their lists and every later node is found one
    index lower, with the list it had.  The adjacents stored in the lists
    are not renumbered. *)
Theorem RemoveNode_shifts_down this i this' :
  AdjacencyList.RemoveNode i this = (Ok tt, this') ->
  AdjacencyList.NumNodes this' = (AdjacencyList.NumNodes this - 1)%Z
  /\ forall k,
       let k0 := if (k <? i)%Z then k else (k + 1)%Z in
       AdjacencyList.NumAdjacents this' k = AdjacencyList.NumAdjacents this k0
       /\ forall idx,
            AdjacencyList.GetAdjacent this' k idx
            = AdjacencyList.GetAdjacent this k0 idx.
Proof.
  rewrite RemoveNode_spec. case_bool_decide as Hi; [|done].
  intros [= <-]. unfold AdjacencyList.NumNodes in *.
  assert (length (delete (Z.to_nat i) (AdjacencyList.m_Adj this))
          = length (AdjacencyList.m_Adj this) - 1) as Hlen
    by (apply length_delete, lookup_lt_is_Some; lia).
  split; [simpl; lia|].
  intros k. cbv zeta. apply reads_ext; unfold AdjacencyList.NumNodes; simpl.
  - rewrite Hlen. destruct (Z.ltb_spec k i); lia.
  - intros Hk. rewrite list_lookup_total_delete.
    destruct (Z.ltb_spec k i); case_decide; try lia; f_equal; lia.
Qed.

Lemma RemoveNode_shifts_down_witness :
  AdjacencyList.GetAdjacent
    (AdjacencyList.mk [[1]; [3]]%Z 3) 1 0
  = AdjacencyList.GetAdjacent
      (AdjacencyList.mk [[1]; [2]; [3]]%Z 3) 2 0.
Proof.
  apply (RemoveNode_shifts_down
           (AdjacencyList.mk [[1]; [2]; [3]]%Z 3) 1
           (AdjacencyList.mk [[1]; [3]]%Z 3)).
  reflexivity.
Defined.

(** X11.  [InsertNode(i)], when it returns, has made a node with no
    adjacent at [i]; the nodes before [i] keep their lists and every
    node from [i] on is found one index higher.  [RemoveNode(i)] then
    gives back the list as it was. *)
Theorem InsertNode_opens_row this i this' :
  AdjacencyList.InsertNode i this = (Ok tt, this') ->
  AdjacencyList.NumNodes this' = (AdjacencyList.NumNodes this + 1)%Z
  /\ AdjacencyList.NumAdjacents this' i = Ok 0%Z
  /\ (forall k, k <> i ->
       let k0 := if (k <? i)%Z then k else (k - 1)%Z in
       AdjacencyList.NumAdjacents this' k = AdjacencyList.NumAdjacents this k0
       /\ forall idx,
            AdjacencyList.GetAdjacent this' k idx
            = AdjacencyList.GetAdjacent this k0 idx)
  /\ AdjacencyList.RemoveNode i this' = (Ok tt, this).
Proof.
  rewrite InsertNode_spec. case_bool_decide as Hi; [|done].
  intros [= <-]. unfold AdjacencyList.NumNodes in *.
  set (rows := AdjacencyList.m_Adj this) in *.
  assert (length (take (Z.to_nat i) rows) = Z.to_nat i) as Htake
    by (rewrite length_take; lia).
  assert (length (take (Z.to_nat i) rows ++ [] :: drop (Z.to_nat i) rows)
          = S (length rows)) as Hlen.
  { rewrite length_app, Htake. simpl. rewrite length_drop. lia. }
  split; [simpl; lia|]. split; [|split].
  - rewrite NumAdjacents_spec. unfold AdjacencyList.NumNodes. simpl.
    rewrite Hlen, bool_decide_eq_true_2 by lia.
    by rewrite list_lookup_total_middle.
  - intros k Hk. cbv zeta.
    apply reads_ext; unfold AdjacencyList.NumNodes; simpl; fold rows.
    + rewrite Hlen. destruct (Z.ltb_spec k i); lia.
    + rewrite Hlen. intros Hrange. destruct (Z.ltb_spec k i).
      * rewrite lookup_total_app_l by lia.
        rewrite lookup_total_take. case_decide; [done|lia].
      * rewrite lookup_total_app_r by lia. rewrite Htake.
        replace (Z.to_nat k - Z.to_nat i) with (S (Z.to_nat k - Z.to_nat i - 1))
          by lia.
        simpl. rewrite lookup_total_drop. f_equal. lia.
  - rewrite RemoveNode_spec. unfold AdjacencyList.NumNodes. simpl.
    rewrite Hlen, bool_decide_eq_true_2 by lia.
    rewrite <- Htake at 1. rewrite delete_middle, take_drop.
    by destruct this.
Qed.

Lemma InsertNode_opens_row_witness :
  AdjacencyList.RemoveNode 1 (AdjacencyList.mk [[1]; []; [3]]%Z 2)
  = (Ok tt, AdjacencyList.mk [[1]; [3]]%Z 2).
Proof.
  apply (InsertNode_opens_row (AdjacencyList.mk [[1]; [3]]%Z 2) 1
           (AdjacencyList.mk [[1]; []; [3]]%Z 2)).
  reflexivity.
Defined.

(** X12.  [SwapNodes(i, j)], when it returns, has exchanged the lists of
    the two nodes and nothing else, and a second [SwapNodes(i, j)] gives
    back the list as it was. *)
Theorem SwapNodes_exchanges this i j this' :
  AdjacencyList.SwapNodes i j this = (Ok tt, this') ->
  AdjacencyList.NumNodes this' = AdjacencyList.NumNodes this
  /\ (forall k,
       let k0 := if (k =? i)%Z then j else if (k =? j)%Z then i else k in
       AdjacencyList.NumAdjacents this' k = AdjacencyList.NumAdjacents this k0
       /\ forall idx,
            AdjacencyList.GetAdjacent this' k idx
            = AdjacencyList.GetAdjacent this k0 idx)
  /\ AdjacencyList.SwapNodes i j this' = (Ok tt, this).
Proof.
  rewrite SwapNodes_spec. case_bool_decide as Hij; [|done].
  intros [= <-]. unfold AdjacencyList.NumNodes in *.
  set (rows := AdjacencyList.m_Adj this) in *.
  split; [simpl; by rewrite swap_length|]. split.
  - intros k. cbv zeta.
    apply reads_ext; unfold AdjacencyList.NumNodes; simpl; fold rows;
      rewrite swap_length.
    + destruct (Z.eqb_spec k i); [lia|]. destruct (Z.eqb_spec k j); lia.
    + intros Hk. rewrite swap_lookup by lia.
      destruct (Z.eqb_spec k i) as [->|]; [|destruct (Z.eqb_spec k j) as [->|]];
        repeat case_decide; try lia; try done; f_equal; lia.
  - rewrite SwapNodes_spec. unfold AdjacencyList.NumNodes. simpl.
    rewrite swap_length, bool_decide_eq_true_2 by done.
    rewrite swap_swap by lia. by destruct this.
Qed.

Lemma SwapNodes_exchanges_witness :
  AdjacencyList.SwapNodes 0 2 (AdjacencyList.mk [[3]; [2]; [1]]%Z 3)
  = (Ok tt, AdjacencyList.mk [[1]; [2]; [3]]%Z 3).
Proof.
  apply (SwapNodes_exchanges (AdjacencyList.mk [[1]; [2]; [3]]%Z 3) 0 2
           (AdjacencyList.mk [[3]; [2]; [1]]%Z 3)).
  reflexivity.
Defined.
Section AdjacentOperations.
Import AdjacencyList.

Lemma reads_insert_other this i row k :
  k <> i -> (0 <= i)%Z ->
  let this' := mk (<[Z.to_nat i := row]> (m_Adj this)) (m_NConnections this) in
  NumAdjacents this' k = NumAdjacents this k
  /\ forall idx, GetAdjacent this' k idx = GetAdjacent this k idx.
Proof.
  intros Hk Hi this'. apply reads_ext; unfold NumNodes; simpl;
    rewrite length_insert; [done|].
  intros Hrange. apply list_lookup_total_insert_ne. lia.
Qed.

Lemma find_NoDup (row : list Z) idx j :
  NoDup row -> row !! idx = Some j -> find row j = Some idx.
Proof.
  intros Hnd Hidx. destruct (find row j) as [pos|] eqn:Hfind.
  - apply find_Some in Hfind as [Hpos _]. f_equal.
    by eapply NoDup_lookup.
  - apply find_None in Hfind. by apply list_elem_of_lookup_2 in Hidx.
Qed.
End AdjacentOperations.

(** X13.  The five operations on the adjacents of a node [i] keep the
    number of nodes, and the list of every other node, whether they
    return or throw. *)
Theorem adjacent_operations_local op this i :
  touched_node op = Some i ->
  AdjacencyList.NumNodes (mutate op this).2 = AdjacencyList.NumNodes this
  /\ forall k, k <> i ->
       AdjacencyList.NumAdjacents (mutate op this).2 k
       = AdjacencyList.NumAdjacents this k
       /\ forall idx,
            AdjacencyList.GetAdjacent (mutate op this).2 k idx
            = AdjacencyList.GetAdjacent this k idx.
Proof.
  destruct op; try done; intros [= ->]; simpl;
    rewrite ?AddAdjacent_spec, ?InsertAdjacent_spec, ?UpdateAdjacent_spec,
      ?ReplaceAdjacent_spec, ?RemoveAdjacent_spec;
    repeat case_bool_decide; try destruct (find _ _); simpl; try done;
    (split; [unfold AdjacencyList.NumNodes; simpl; by rewrite length_insert|]);
    intros node Hnode;
    (apply reads_insert_other; [done|unfold valid_position in *; lia]).
Qed.

Lemma adjacent_operations_local_witness :
  AdjacencyList.NumNodes
    (mutate (DoAddAdjacent 0 4) (AdjacencyList.mk [[1]; [3]]%Z 2)).2
  = AdjacencyList.NumNodes (AdjacencyList.mk [[1]; [3]]%Z 2).
Proof.
  apply (adjacent_operations_local (DoAddAdjacent 0 4)
           (AdjacencyList.mk [[1]; [3]]%Z 2) 0).
  reflexivity.
Defined.

(** X14.  [InsertAdjacent(i, j, idx)], when it returns, has put [j] at
    position [idx] of the list of [i], with one adjacent more, and
    [RemoveAdjacent(i, idx)] then gives back the list as it was. *)
Theorem InsertAdjacent_then_RemoveAdjacent this i j idx this' :
  AdjacencyList.InsertAdjacent i j idx this = (Ok tt, this') ->
  AdjacencyList.GetAdjacent this' i idx = Ok j
  /\ (exists n, AdjacencyList.NumAdjacents this i = Ok n
        /\ AdjacencyList.NumAdjacents this' i = Ok (n + 1)%Z)
  /\ AdjacencyList.RemoveAdjacent i idx this' = (Ok tt, this).
Proof.
  rewrite InsertAdjacent_spec. case_bool_decide as Hv; [|done].
  case_bool_decide; [|done]. intros [= <-]. destruct Hv as [Hi Hidx].
  unfold AdjacencyList.NumNodes in *.
  set (rows := AdjacencyList.m_Adj this) in *.
  set (row := rows !!! Z.to_nat i) in *.
  assert (length (take (Z.to_nat idx) row) = Z.to_nat idx) as Htake
    by (rewrite length_take; lia).
  assert (length (take (Z.to_nat idx) row ++ j :: drop (Z.to_nat idx) row)
          = S (length row)) as Hlen.
  { rewrite length_app, Htake. simpl. rewrite length_drop. lia. }
  split; [|split].
  - rewrite GetAdjacent_spec. unfold valid_position, AdjacencyList.NumNodes.
    simpl. fold rows. rewrite length_insert.
    rewrite list_lookup_total_insert_eq by lia.
    rewrite Hlen, bool_decide_eq_true_2 by lia.
    by rewrite list_lookup_total_middle.
  - eexists. rewrite !NumAdjacents_spec. unfold AdjacencyList.NumNodes.
    simpl. fold rows. rewrite length_insert.
    rewrite !bool_decide_eq_true_2 by lia.
    rewrite list_lookup_total_insert_eq by lia. fold row. rewrite Hlen.
    split; [done|]. f_equal. lia.
  - rewrite RemoveAdjacent_spec. unfold valid_position, AdjacencyList.NumNodes.
    simpl. fold rows. rewrite length_insert.
    rewrite list_lookup_total_insert_eq by lia.
    rewrite Hlen, bool_decide_eq_true_2 by lia.
    rewrite list_insert_insert_eq.
    rewrite <- Htake at 1. rewrite delete_middle, take_drop.
    subst row. rewrite list_insert_id' by (intros; by apply row_lookup).
    subst rows. by destruct this.
Qed.

Lemma InsertAdjacent_then_RemoveAdjacent_witness :
  AdjacencyList.GetAdjacent (AdjacencyList.mk [[1; 7; 2]]%Z 2) 0 1 = Ok 7%Z.
Proof.
  apply (InsertAdjacent_then_RemoveAdjacent
           (AdjacencyList.mk [[1; 2]]%Z 2) 0 7 1
           (AdjacencyList.mk [[1; 7; 2]]%Z 2)).
  reflexivity.
Defined.

(** X15.  [AddAdjacent(i, j)], when it returns, has put [j] after the
    adjacents that [i] had, and [RemoveAdjacent] at that last position
    then gives back the list as it was. *)
Theorem AddAdjacent_then_RemoveAdjacent this i j this' :
  AdjacencyList.AddAdjacent i j this = (Ok tt, this') ->
  exists n,
    AdjacencyList.NumAdjacents this i = Ok n
    /\ AdjacencyList.NumAdjacents this' i = Ok (n + 1)%Z
    /\ AdjacencyList.GetAdjacent this' i n = Ok j
    /\ (forall idx, (idx < n)%Z ->
          AdjacencyList.GetAdjacent this' i idx
          = AdjacencyList.GetAdjacent this i idx)
    /\ AdjacencyList.RemoveAdjacent i n this' = (Ok tt, this).
Proof.
  rewrite AddAdjacent_spec. case_bool_decide as Hi; [|done].
  case_bool_decide; [|done]. intros [= <-].
  unfold AdjacencyList.NumNodes in *.
  set (rows := AdjacencyList.m_Adj this) in *.
  set (row := rows !!! Z.to_nat i) in *.
  exists (Z.of_nat (length row)).
  rewrite !NumAdjacents_spec, !GetAdjacent_spec, RemoveAdjacent_spec.
  unfold valid_position, AdjacencyList.NumNodes. simpl. fold rows.
  rewrite length_insert, list_lookup_total_insert_eq by lia. fold row.
  rewrite length_app. simpl.
  rewrite !(bool_decide_eq_true_2 (0 <= i < _)%Z) by lia.
  rewrite !(bool_decide_eq_true_2 (_ /\ (0 <= Z.of_nat _ < _)%Z)) by lia.
  rewrite Nat2Z.id.
  split; [done|]. split; [f_equal; lia|]. split; [|split].
  - by rewrite list_lookup_total_middle.
  - intros idx Hidx. rewrite !GetAdjacent_spec.
    unfold valid_position, AdjacencyList.NumNodes. simpl. fold rows.
    rewrite length_insert, list_lookup_total_insert_eq by lia. fold row.
    rewrite length_app. simpl.
    repeat case_bool_decide; try done; try lia.
    by rewrite lookup_total_app_l by lia.
  - rewrite list_insert_insert_eq.
    replace (delete (length row) (row ++ [j])) with row
      by (by rewrite delete_middle, app_nil_r).
    subst row. rewrite list_insert_id' by (intros; by apply row_lookup).
    subst rows. by destruct this.
Qed.

Lemma AddAdjacent_then_RemoveAdjacent_witness :
  exists n,
    AdjacencyList.NumAdjacents (AdjacencyList.mk [[1; 2]]%Z 2) 0 = Ok n
    /\ AdjacencyList.NumAdjacents (AdjacencyList.mk [[1; 2; 7]]%Z 2) 0
       = Ok (n + 1)%Z
    /\ AdjacencyList.GetAdjacent (AdjacencyList.mk [[1; 2; 7]]%Z 2) 0 n
       = Ok 7%Z
    /\ (forall idx, (idx < n)%Z ->
          AdjacencyList.GetAdjacent (AdjacencyList.mk [[1; 2; 7]]%Z 2) 0 idx
          = AdjacencyList.GetAdjacent (AdjacencyList.mk [[1; 2]]%Z 2) 0 idx)
    /\ AdjacencyList.RemoveAdjacent 0 n (AdjacencyList.mk [[1; 2; 7]]%Z 2)
       = (Ok tt, AdjacencyList.mk [[1; 2]]%Z 2).
Proof.
  apply (AddAdjacent_then_RemoveAdjacent
           (AdjacencyList.mk [[1; 2]]%Z 2) 0 7
           (AdjacencyList.mk [[1; 2; 7]]%Z 2)).
  reflexivity.
Defined.

(** X16.  Writing to a position the adjacent it holds: [UpdateAdjacent]
    returns and changes nothing, where [ReplaceAdjacent] of an adjacent
    by itself always throws. *)
Theorem replace_by_itself this i j idx :
  AdjacencyList.GetAdjacent this i idx = Ok j ->
  AdjacencyList.UpdateAdjacent i j idx this = (Ok tt, this)
  /\ AdjacencyList.ReplaceAdjacent i j j this = (Throw AssertionError, this).
Proof.
  rewrite GetAdjacent_spec, UpdateAdjacent_spec, ReplaceAdjacent_spec.
  case_bool_decide as Hv; [|done]. intros [= Hj].
  rewrite (bool_decide_eq_true_2 (_ = _)) by done.
  destruct Hv as [Hi Hidx]. rewrite bool_decide_eq_true_2 by done.
  split; [done|]. rewrite bool_decide_eq_false_2; [done|].
  intros Hnot. apply Hnot. rewrite <- Hj.
  apply list_elem_of_lookup_total_2. lia.
Qed.

Lemma replace_by_itself_witness :
  AdjacencyList.UpdateAdjacent 0 2 1 (AdjacencyList.mk [[1; 2]]%Z 2)
  = (Ok tt, AdjacencyList.mk [[1; 2]]%Z 2)
  /\ AdjacencyList.ReplaceAdjacent 0 2 2 (AdjacencyList.mk [[1; 2]]%Z 2)
     = (Throw AssertionError, AdjacencyList.mk [[1; 2]]%Z 2).
Proof.
  apply (replace_by_itself (AdjacencyList.mk [[1; 2]]%Z 2) 0 2 1).
  reflexivity.
Defined.



(** ** Further properties: the conversions *)

Section ConversionReads.

Lemma length_concat_take_le (A : list (list Z)) k :
  length (concat (take k A)) <= length (concat A).
Proof.
  rewrite <- (take_drop k A) at 2. rewrite concat_app, length_app. lia.
Qed.

(** The reads of a compact list are the reads of the rows it holds. *)
Lemma flattens_reads A CAL NC i :
  flattens A CAL ->
  CompatAdjacencyList.NumAdjacents CAL i
  = AdjacencyList.NumAdjacents (AdjacencyList.mk A NC) i
  /\ forall idx,
       CompatAdjacencyList.GetAdjacent CAL i idx
       = AdjacencyList.GetAdjacent (AdjacencyList.mk A NC) i idx.
Proof.
  intros Hflat.
  destruct (decide (0 <= i < Z.of_nat (length A))%Z) as [Hi|Hi].
  - replace i with (Z.of_nat (Z.to_nat i)) by lia.
    assert (CompatAdjacencyList.NumAdjacents CAL (Z.of_nat (Z.to_nat i))
            = AdjacencyList.NumAdjacents (AdjacencyList.mk A NC)
                (Z.of_nat (Z.to_nat i))) as Hnum.
    { rewrite (Compact_NumAdjacents A), Flexible_NumAdjacents;
        simpl; try done; lia. }
    split; [done|]. intros idx.
    destruct (decide (0 <= idx
                      < Z.of_nat (length (A !!! Z.to_nat i)))%Z) as [Hidx|Hidx].
    + replace idx with (Z.of_nat (Z.to_nat idx)) by lia.
      rewrite (Compact_GetAdjacent A), Flexible_GetAdjacent;
        simpl; try done; lia.
    + unfold CompatAdjacencyList.GetAdjacent, AdjacencyList.GetAdjacent.
      rewrite Hnum, Flexible_NumAdjacents by (simpl; lia).
      rewrite (Compact_NumNodes A) by done.
      unfold AdjacencyList.NumNodes. simpl. rewrite Nat2Z.id.
      split_checks; done.
  - unfold CompatAdjacencyList.NumAdjacents, AdjacencyList.NumAdjacents,
      CompatAdjacencyList.GetAdjacent, AdjacencyList.GetAdjacent.
    rewrite (Compact_NumNodes A) by done.
    unfold AdjacencyList.NumNodes. simpl.
    split; [|intros idx]; split_checks; done.
Qed.

Lemma sum_NumAdjacents_prefix this k acc :
  k <= length (AdjacencyList.m_Adj this) ->
  foldr (fun i acc =>
           match AdjacencyList.NumAdjacents this (Z.of_nat i) with
           | Ok n => (n + acc)%Z
           | Throw _ => acc
           end) acc (seq 0 k)
  = (Z.of_nat (length (concat (take k (AdjacencyList.m_Adj this)))) + acc)%Z.
Proof.
  revert acc. induction k as [|k IH]; intros acc Hk.
  - by rewrite take_0.
  - rewrite seq_S, foldr_app. simpl.
    rewrite Flexible_NumAdjacents, IH by lia.
    rewrite concat_take_S, length_app by lia. lia.
Qed.

Lemma sum_NumAdjacents_concat this :
  sum_NumAdjacents this
  = Z.of_nat (length (concat (AdjacencyList.m_Adj this))).
Proof.
  unfold sum_NumAdjacents. rewrite sum_NumAdjacents_prefix by done.
  rewrite take_ge by done. lia.
Qed.
End ConversionReads.

(** X18.  The compact list built from an [AdjacencyList] answers every
    read as the source does, the refusals included, and its
    [NumConnections()] is the number of adjacents that the source
    holds. *)
Theorem compact_copy_reads (FAL : AdjacencyList.t) :
  exists CAL,
    CompatAdjacencyList_copy (BaseAdjacencyList.Flexible FAL) = (Ok tt, CAL)
    /\ CompatAdjacencyList.NumNodes CAL = AdjacencyList.NumNodes FAL
    /\ (forall i,
          CompatAdjacencyList.NumAdjacents CAL i
          = AdjacencyList.NumAdjacents FAL i
          /\ forall idx,
               CompatAdjacencyList.GetAdjacent CAL i idx
               = AdjacencyList.GetAdjacent FAL i idx)
    /\ CompatAdjacencyList.NumConnections CAL = sum_NumAdjacents FAL.
Proof.
  destruct (CompatAdjacencyList_copy_Flexible FAL) as (CAL & Hcopy & Hflat).
  exists CAL. split; [done|]. split; [by apply Compact_NumNodes|].
  split.
  - intros i. destruct FAL as [A NC]. by apply flattens_reads.
  - rewrite sum_NumAdjacents_concat.
    unfold CompatAdjacencyList.NumConnections. by destruct Hflat as [-> _].
Qed.

(** X19.  The [AdjacencyList] built from an [AdjacencyList] has every
    adjacent of the source twice: each node has twice the adjacents, the
    list of the source followed by the same list again.  The count of
    connections is the one of the source. *)
Theorem copy_repeats_every_adjacent (FAL : AdjacencyList.t) :
  exists copy,
    AdjacencyList_copy (BaseAdjacencyList.Flexible FAL) = (Ok tt, copy)
    /\ AdjacencyList.NumNodes copy = AdjacencyList.NumNodes FAL
    /\ AdjacencyList.NumConnections copy = AdjacencyList.NumConnections FAL
    /\ forall i n,
         AdjacencyList.NumAdjacents FAL i = Ok n ->
         AdjacencyList.NumAdjacents copy i = Ok (2 * n)%Z
         /\ forall idx, (0 <= idx < n)%Z ->
              AdjacencyList.GetAdjacent copy i idx
              = AdjacencyList.GetAdjacent FAL i idx
              /\ AdjacencyList.GetAdjacent copy i (n + idx)
                 = AdjacencyList.GetAdjacent FAL i idx.
Proof.
  eexists. split; [apply AdjacencyList_copy_Flexible|].
  unfold AdjacencyList.NumNodes, AdjacencyList.NumConnections. simpl.
  rewrite length_fmap. split; [done|]. split; [done|].
  intros i n. rewrite !NumAdjacents_spec.
  unfold AdjacencyList.NumNodes. simpl. rewrite length_fmap.
  case_bool_decide as Hi; [|done]. intros [= <-].
  set (row := AdjacencyList.m_Adj FAL !!! Z.to_nat i).
  assert (((fun row => row ++ row) <$> AdjacencyList.m_Adj FAL) !!! Z.to_nat i
          = row ++ row) as Hrow.
  { apply list_lookup_total_correct. rewrite list_lookup_fmap.
    subst row. by rewrite row_lookup by lia. }
  rewrite Hrow, length_app. split; [f_equal; lia|].
  intros idx Hidx. rewrite !GetAdjacent_spec.
  unfold valid_position, AdjacencyList.NumNodes. simpl.
  rewrite length_fmap, Hrow, length_app. fold row.
  rewrite !bool_decide_eq_true_2 by lia. split; f_equal.
  - by rewrite lookup_total_app_l by lia.
  - rewrite lookup_total_app_r by lia. f_equal. lia.
Qed.
Section CopyOfCompact.

Lemma bind_Compat_update_Adj {B : Type} f (k : unit -> M _ B) s :
  (CompatAdjacencyList.update_Adj f ≫= k) s
  = k tt (CompatAdjacencyList.mk (f (CompatAdjacencyList.m_Adj s))
            (CompatAdjacencyList.m_Idx s)).
Proof. done. Qed.

(** What the copy constructor builds from a [CompatAdjacencyList]: the
    adjacents twice over, under the offsets of the source. *)
Lemma CompatAdjacencyList_copy_Compact A CAL :
  flattens A CAL ->
  CompatAdjacencyList_copy (BaseAdjacencyList.Compact CAL)
  = (Ok tt,
     CompatAdjacencyList.mk
       (CompatAdjacencyList.m_Adj CAL ++ CompatAdjacencyList.m_Adj CAL)
       (CompatAdjacencyList.m_Idx CAL)).
Proof.
  intros Hflat. pose proof Hflat as (Hadj & Hlen & Hidx).
  set (n := length A) in *.
  unfold CompatAdjacencyList_copy, CompatAdjacencyList_copy_body.
  cbn [BaseAdjacencyList.NumNodes BaseAdjacencyList.NumAdjacents
       BaseAdjacencyList.GetAdjacent].
  rewrite (Compact_NumNodes A) by done. fold n.
  rewrite bind_assoc, bind_Compat_update_Adj, !bind_Compat_update_Idx. simpl.
  replace (Z.to_nat (Z.of_nat n + 1))
    with (length (CompatAdjacencyList.m_Idx CAL)) by lia.
  rewrite resize_all.
  edestruct (for_range_inv
               (fun k s =>
                  CompatAdjacencyList.m_Adj s = concat A ++ concat (take k A)
                  /\ CompatAdjacencyList.m_Idx s
                     = CompatAdjacencyList.m_Idx CAL))
    as (copy & Hloop & Hadj' & Hidx').
  3:{ rewrite Hloop. f_equal. destruct copy as [adj idx]. simpl in *.
      rewrite Hadj', Hidx', take_ge by done. by rewrite Hadj. }
  - simpl. by rewrite app_nil_r.
  - intros k s Hk [Hadj' Hidx'].
    rewrite (bind_check_Ok _ _ (Z.of_nat (length (A !!! k))))
      by by apply (Compact_NumAdjacents A).
    rewrite bind_Compat_update_Idx.
    set (s1 := CompatAdjacencyList.mk _ _).
    destruct (for_range_inv
                (fun j s =>
                   CompatAdjacencyList.m_Adj s
                   = concat A ++ concat (take k A) ++ take j (A !!! k)
                   /\ CompatAdjacencyList.m_Idx s
                      = CompatAdjacencyList.m_Idx CAL)
                (fun j =>
                   x ← check (CompatAdjacencyList.GetAdjacent CAL
                                (Z.of_nat k) j);
                   CompatAdjacencyList.update_Adj (fun adj => adj ++ [x]))
                (length (A !!! k)) s1) as (s2 & Hloop & Hadj2 & Hidx2).
    { subst s1. simpl. split; [by rewrite Hadj', take_0, app_nil_r|].
      rewrite Hidx'. apply list_insert_id'. intros _.
      replace (Z.to_nat (Z.of_nat k + 1)) with (S k) by lia.
      rewrite Nat2Z.id, list_lookup_lookup_total_lt by lia. f_equal.
      rewrite !Hidx by lia. rewrite concat_take_S, length_app by done. lia. }
    { intros j s' Hj [Ha Hi].
      rewrite (bind_check_Ok _ _ ((A !!! k) !!! j))
        by by apply (Compact_GetAdjacent A).
      eexists. split; [done|]. simpl. split; [|done].
      rewrite Ha, <- !app_assoc. do 2 f_equal.
      symmetry. apply take_S_r. by apply list_lookup_lookup_total_lt. }
    exists s2. split; [exact Hloop|].
    rewrite Hadj2, Hidx2, (take_ge (A !!! k)) by lia.
    split; [|done]. by rewrite concat_take_S.
Qed.
End CopyOfCompact.

(** X20.  The [CompatAdjacencyList] built from a [CompatAdjacencyList]
    that holds the rows [A] has the offsets of the source and every
    read answers as on the source, but it stores the adjacents twice:
    its [NumConnections()] is twice the one of the source. *)
Theorem compact_copy_of_compact A CAL :
  flattens A CAL ->
  exists copy,
    CompatAdjacencyList_copy (BaseAdjacencyList.Compact CAL) = (Ok tt, copy)
    /\ CompatAdjacencyList.NumNodes copy = CompatAdjacencyList.NumNodes CAL
    /\ (forall i,
          CompatAdjacencyList.NumAdjacents copy i
          = CompatAdjacencyList.NumAdjacents CAL i
          /\ forall idx,
               CompatAdjacencyList.GetAdjacent copy i idx
               = CompatAdjacencyList.GetAdjacent CAL i idx)
    /\ CompatAdjacencyList.NumConnections copy
       = (2 * CompatAdjacencyList.NumConnections CAL)%Z.
Proof.
  intros Hflat. eexists.
  split; [by apply (CompatAdjacencyList_copy_Compact A)|].
  split; [done|]. split.
  - intros i. split; [done|]. intros idx.
    unfold CompatAdjacencyList.GetAdjacent.
    replace (CompatAdjacencyList.NumAdjacents
               (CompatAdjacencyList.mk _ (CompatAdjacencyList.m_Idx CAL)) i)
      with (CompatAdjacencyList.NumAdjacents CAL i) by done.
    replace (CompatAdjacencyList.NumNodes
               (CompatAdjacencyList.mk _ (CompatAdjacencyList.m_Idx CAL)))
      with (CompatAdjacencyList.NumNodes CAL) by done.
    rewrite (Compact_NumNodes A) by done.
    destruct (decide (0 <= i < Z.of_nat (length A))%Z) as [Hi|Hi];
      [|split_checks; done].
    replace i with (Z.of_nat (Z.to_nat i)) by lia.
    rewrite (Compact_NumAdjacents A) by (done || lia).
    split_checks; try done. simpl. f_equal.
    destruct Hflat as (Hadj & Hlen & Hidx).
    rewrite Nat2Z.id, Hidx by lia.
    apply lookup_total_app_l. rewrite Hadj.
    pose proof (length_concat_take_le A (S (Z.to_nat i))) as Hle.
    rewrite concat_take_S, length_app in Hle by lia. lia.
  - unfold CompatAdjacencyList.NumConnections. simpl.
    rewrite length_app. lia.
Qed.

Lemma compact_copy_of_compact_witness :
  let CAL := CompatAdjacencyList.mk [5; 2; 5]%Z [0; 2; 3]%Z in
  exists copy,
    CompatAdjacencyList_copy (BaseAdjacencyList.Compact CAL) = (Ok tt, copy)
    /\ CompatAdjacencyList.NumNodes copy = CompatAdjacencyList.NumNodes CAL
    /\ (forall i,
          CompatAdjacencyList.NumAdjacents copy i
          = CompatAdjacencyList.NumAdjacents CAL i
          /\ forall idx,
               CompatAdjacencyList.GetAdjacent copy i idx
               = CompatAdjacencyList.GetAdjacent CAL i idx)
    /\ CompatAdjacencyList.NumConnections copy
       = (2 * CompatAdjacencyList.NumConnections CAL)%Z.
Proof.
  apply (compact_copy_of_compact [[5; 2]; [5]]%Z).
  split; [reflexivity|]. split; [reflexivity|].
  intros i Hi. destruct i as [|[|[|i]]]; [reflexivity..|simpl in Hi; lia].
Defined.
Section Assignment.

(** What [operator=] leaves in its target when its source is a compact
    list: the rows that the target had, cut or filled to the number of
    nodes of the source, and after each the row of the source. *)
Lemma AdjacencyList_assign_Compact A CAL this :
  flattens A CAL ->
  AdjacencyList_assign (BaseAdjacencyList.Compact CAL) this
  = (Ok tt,
     AdjacencyList.mk
       (zip_with app (resize (length A) [] (AdjacencyList.m_Adj this)) A)
       (Z.of_nat (length (concat A)))).
Proof.
  intros Hflat. pose proof Hflat as (Hadj & Hlen & Hidx).
  set (n := length A) in *.
  unfold AdjacencyList_assign, AdjacencyList_copy_body.
  cbn [BaseAdjacencyList.NumNodes BaseAdjacencyList.NumAdjacents
       BaseAdjacencyList.GetAdjacent BaseAdjacencyList.NumConnections].
  rewrite (Compact_NumNodes A) by done. fold n.
  unfold CompatAdjacencyList.NumConnections. rewrite Hadj.
  rewrite bind_st_ret, bind_set_NConnections, bind_update_Adj. simpl.
  rewrite Nat2Z.id.
  set (R := resize n [] (AdjacencyList.m_Adj this)).
  assert (length R = n) as HR by apply length_resize.
  destruct (Z.eqb_spec (Z.of_nat n) 0) as [Hz|Hnz].
  { assert (A = []) as -> by (apply nil_length_inv; lia).
    unfold st_ret. by rewrite zip_with_nil_r, (nil_length_inv R) by lia. }
  edestruct (for_range_inv
               (fun k s =>
                  AdjacencyList.m_Adj s
                  = zip_with app (take k R) (take k A) ++ drop k R
                  /\ AdjacencyList.m_NConnections s
                     = Z.of_nat (length (concat A))))
    as (FAL & Hloop & Hrows & HNC).
  3:{ rewrite Hloop. f_equal. destruct FAL as [adj NC]. simpl in *.
      rewrite Hrows, HNC, !take_ge, drop_ge by lia.
      by rewrite app_nil_r. }
  - split; [|done]. simpl. by rewrite drop_0.
  - intros k s Hk [Hrows HNC].
    rewrite (bind_check_Ok _ _ (Z.of_nat (length (A !!! k))))
      by by apply (Compact_NumAdjacents A).
    assert (length (zip_with app (take k R) (take k A)) = k) as Hzip
      by (rewrite length_zip_with, !length_take; lia).
    edestruct (for_range_inv
                 (fun j s =>
                    AdjacencyList.m_Adj s
                    = zip_with app (take k R) (take k A)
                      ++ (R !!! k ++ take j (A !!! k)) :: drop (S k) R
                    /\ AdjacencyList.m_NConnections s
                       = Z.of_nat (length (concat A))))
      as (s2 & Hinner & Hrows2 & HNC2).
    3:{ exists s2. split; [exact Hinner|]. split; [|done].
        rewrite Hrows2, (take_ge (A !!! k)) by lia.
        rewrite (take_S_r A k (A !!! k)) by by apply row_lookup.
        rewrite (take_S_r R k (R !!! k)) by (apply row_lookup; lia).
        rewrite zip_with_app by (rewrite !length_take; lia).
        by rewrite <- app_assoc. }
    + split; [|done]. rewrite Hrows, take_0, app_nil_r.
      by rewrite (drop_S R (R !!! k) k) by (apply row_lookup; lia).
    + intros j s' Hj [Hrows' HNC'].
      rewrite (bind_check_Ok _ _ ((A !!! k) !!! j))
        by by apply (Compact_GetAdjacent A).
      eexists. split; [done|]. simpl. split; [|done].
      rewrite Nat2Z.id, Hrows'.
      rewrite lookup_total_app_r, insert_app_r_alt by lia.
      rewrite Hzip, Nat.sub_diag. simpl. rewrite <- app_assoc.
      do 3 f_equal.
      symmetry. apply take_S_r. by apply list_lookup_lookup_total_lt.
Qed.
End Assignment.

(** X21.  [operator=] from an [AdjacencyList] does not look at what its
    target held: it leaves what the copy constructor builds from the
    same source. *)
Theorem assign_from_AdjacencyList FAL this :
  AdjacencyList_assign (BaseAdjacencyList.Flexible FAL) this
  = AdjacencyList_copy (BaseAdjacencyList.Flexible FAL).
Proof.
  unfold AdjacencyList_assign, AdjacencyList_copy, AdjacencyList_copy_body.
  by rewrite !bind_assoc, !bind_set_Adj, !bind_set_NConnections.
Qed.

(** X22.  [operator=] from a compact list that holds the rows [A] keeps
    the adjacents of its target: the target gets the number of nodes of
    the source and the count of its adjacents, and node [i] has the
    adjacents it had before (none, if it is new) followed by those that
    the source has for [i]. *)
Theorem assign_from_compact_appends A CAL this :
  flattens A CAL ->
  exists this',
    AdjacencyList_assign (BaseAdjacencyList.Compact CAL) this = (Ok tt, this')
    /\ AdjacencyList.NumNodes this' = CompatAdjacencyList.NumNodes CAL
    /\ AdjacencyList.NumConnections this'
       = CompatAdjacencyList.NumConnections CAL
    /\ forall i, i < length A ->
         AdjacencyList.m_Adj this' !!! i
         = (if decide (i < length (AdjacencyList.m_Adj this))
            then AdjacencyList.m_Adj this !!! i else [])
           ++ A !!! i.
Proof.
  intros Hflat. eexists.
  split; [by apply (AdjacencyList_assign_Compact A)|].
  unfold AdjacencyList.NumNodes, AdjacencyList.NumConnections,
    CompatAdjacencyList.NumConnections. simpl.
  rewrite length_zip_with, length_resize, Nat.min_id.
  split; [by rewrite (Compact_NumNodes A)|].
  split; [by destruct Hflat as [-> _]|].
  intros i Hi. apply list_lookup_total_correct.
  rewrite lookup_zip_with, row_lookup by done.
  case_decide as Hold.
  - rewrite lookup_resize by done. by rewrite row_lookup by done.
  - by rewrite lookup_resize_new by lia.
Qed.

Lemma assign_from_compact_appends_witness :
  let CAL := CompatAdjacencyList.mk [5; 2; 5]%Z [0; 2; 3]%Z in
  let this := AdjacencyList.mk [[1]]%Z 1 in
  exists this',
    AdjacencyList_assign (BaseAdjacencyList.Compact CAL) this = (Ok tt, this')
    /\ AdjacencyList.NumNodes this' = CompatAdjacencyList.NumNodes CAL
    /\ AdjacencyList.NumConnections this'
       = CompatAdjacencyList.NumConnections CAL
    /\ forall i, i < 2 ->
         AdjacencyList.m_Adj this' !!! i
         = (if decide (i < 1) then [[1]]%Z !!! i else [])
           ++ [[5; 2]; [5]]%Z !!! i.
Proof.
  apply (assign_from_compact_appends [[5; 2]; [5]]%Z).
  split; [reflexivity|]. split; [reflexivity|].
  intros i Hi. destruct i as [|[|[|i]]]; [reflexivity..|simpl in Hi; lia].
Defined.
Section CompactAssignment.

(** What the body shared by the constructor and [operator=] of
    [CompatAdjacencyList] does to the members it finds, when the source
    is an [AdjacencyList]. *)
Lemma CompatAdjacencyList_copy_body_Flexible FAL this :
  let A := AdjacencyList.m_Adj FAL in
  let base := resize (S (length A)) 0%Z (CompatAdjacencyList.m_Idx this) !!! 0 in
  exists this',
    CompatAdjacencyList_copy_body (BaseAdjacencyList.Flexible FAL) this
    = (Ok tt, this')
    /\ CompatAdjacencyList.m_Adj this'
       = CompatAdjacencyList.m_Adj this ++ concat A
    /\ length (CompatAdjacencyList.m_Idx this') = S (length A)
    /\ forall i, i <= length A ->
         CompatAdjacencyList.m_Idx this' !!! i
         = (base + Z.of_nat (length (concat (take i A))))%Z.
Proof.
  intros A base. set (n := length A) in *.
  unfold CompatAdjacencyList_copy_body.
  cbn [BaseAdjacencyList.NumNodes BaseAdjacencyList.NumAdjacents
       BaseAdjacencyList.GetAdjacent].
  unfold AdjacencyList.NumNodes. fold A n.
  rewrite bind_st_ret, bind_Compat_update_Idx.
  replace (Z.to_nat (Z.of_nat n + 1)) with (S n) by lia.
  edestruct (for_range_inv
           (fun k s =>
              CompatAdjacencyList.m_Adj s
              = CompatAdjacencyList.m_Adj this ++ concat (take k A)
              /\ length (CompatAdjacencyList.m_Idx s) = S n
              /\ forall i, i <= k ->
                   CompatAdjacencyList.m_Idx s !!! i
                   = (base + Z.of_nat (length (concat (take i A))))%Z))
    as (CAL & Hloop & Hadj & Hlen & Hidx).
  3:{ exists CAL. split; [exact Hloop|].
      rewrite take_ge in Hadj by done. done. }
  - simpl. split; [by rewrite app_nil_r|]. split; [apply length_resize|].
    intros i Hi. replace i with 0 by lia. simpl. subst base. lia.
  - intros k s Hk (Hadj & Hlen & Hidx).
    rewrite (bind_check_Ok _ _ (Z.of_nat (length (A !!! k))))
      by by apply Flexible_NumAdjacents.
    rewrite bind_Compat_update_Idx, Nat2Z.id.
    set (s1 := CompatAdjacencyList.mk _ _).
    destruct (for_range_inv
                (fun j s =>
                   CompatAdjacencyList.m_Adj s
                   = CompatAdjacencyList.m_Adj this
                     ++ concat (take k A) ++ take j (A !!! k)
                   /\ CompatAdjacencyList.m_Idx s
                      = CompatAdjacencyList.m_Idx s1)
                (fun j =>
                   x ← check (AdjacencyList.GetAdjacent FAL (Z.of_nat k) j);
                   CompatAdjacencyList.update_Adj (fun adj => adj ++ [x]))
                (length (A !!! k)) s1) as (s2 & Hloop & Hadj2 & Hidx2).
    { split; [|done]. subst s1. simpl. by rewrite Hadj, take_0, app_nil_r. }
    { intros j s' Hj [Hadj' Hidx'].
      rewrite (bind_check_Ok _ _ ((A !!! k) !!! j))
        by by apply Flexible_GetAdjacent.
      eexists. split; [done|]. simpl. split; [|done].
      rewrite Hadj', <- !app_assoc. do 2 f_equal.
      symmetry. apply take_S_r. by apply list_lookup_lookup_total_lt. }
    exists s2. split; [exact Hloop|].
    rewrite Hadj2, Hidx2, (take_ge (A !!! k)) by lia. subst s1. simpl.
    split; [by rewrite concat_take_S|].
    split; [by rewrite length_insert|].
    intros i Hi.
    replace (Z.to_nat (Z.of_nat k + 1)) with (S k) by lia.
    destruct (decide (i = S k)) as [->|Hne].
    + rewrite list_lookup_total_insert_eq by lia.
      rewrite Hidx, concat_take_S, length_app by done. lia.
    + rewrite list_lookup_total_insert_ne by lia. apply Hidx. lia.
Qed.
End CompactAssignment.

(** X23.  [operator=] of [CompatAdjacencyList] from an [AdjacencyList]
    keeps the adjacents that its target stored and puts those of the
    source after them: the target gets the nodes of the source and the
    number of adjacents of each, and its [NumConnections()] grows by the
    number of adjacents that the source holds. *)
Theorem compact_assign_keeps_adjacents FAL this :
  exists this',
    CompatAdjacencyList_assign (BaseAdjacencyList.Flexible FAL) this
    = (Ok tt, this')
    /\ CompatAdjacencyList.m_Adj this'
       = CompatAdjacencyList.m_Adj this ++ concat (AdjacencyList.m_Adj FAL)
    /\ CompatAdjacencyList.NumNodes this' = AdjacencyList.NumNodes FAL
    /\ (forall i,
          CompatAdjacencyList.NumAdjacents this' i
          = AdjacencyList.NumAdjacents FAL i)
    /\ CompatAdjacencyList.NumConnections this'
       = (CompatAdjacencyList.NumConnections this + sum_NumAdjacents FAL)%Z.
Proof.
  destruct (CompatAdjacencyList_copy_body_Flexible FAL this)
    as (this' & Hrun & Hadj & Hlen & Hidx).
  exists this'. split; [done|]. split; [done|].
  assert (CompatAdjacencyList.NumNodes this' = AdjacencyList.NumNodes FAL)
    as Hnodes.
  { unfold CompatAdjacencyList.NumNodes, AdjacencyList.NumNodes. lia. }
  split; [done|]. split.
  - intros i. rewrite NumAdjacents_spec.
    unfold CompatAdjacencyList.NumAdjacents. rewrite Hnodes.
    unfold AdjacencyList.NumNodes.
    case_bool_decide as Hi; [|split_checks; done].
    split_checks. simpl. f_equal.
    replace (Z.to_nat (i + 1)) with (S (Z.to_nat i)) by lia.
    rewrite !Hidx, concat_take_S, length_app by lia. lia.
  - unfold CompatAdjacencyList.NumConnections.
    rewrite Hadj, length_app, sum_NumAdjacents_concat. lia.
Qed.

(** ** Further properties: [CompatAdjacencyList] from connections *)

(** The connections are stored sorted; a node that no connection names
    gets an empty range, and a negative node, when the largest is not,
    counts as node 0. *)
Example compact_ctor_demo :
  CompatAdjacencyList_ctor_connections [(2, 1); (0, 3); (2, 0); (0, 3)]%Z
  = Some (CompatAdjacencyList.mk [3; 3; 0; 1]%Z [0; 2; 2; 4]%Z)
  /\ CompatAdjacencyList_ctor_connections [(1, 3); (-1, 7)]%Z
     = Some (CompatAdjacencyList.mk [7; 3]%Z [0; 1; 2]%Z)
  /\ CompatAdjacencyList_ctor_connections [] = None
  /\ CompatAdjacencyList_ctor_connections [(-1, 7)]%Z = None.
Proof. vm_compute. done. Qed.

Section CompactConstruction.

#[export] Instance pair_le_total : Total pair_le.
Proof. intros [a1 a2] [b1 b2]. unfold pair_le. simpl. lia. Qed.

#[export] Instance pair_le_trans : Transitive pair_le.
Proof. intros [a1 a2] [b1 b2] [c1 c2]. unfold pair_le. simpl. lia. Qed.












End CompactConstruction.



(** ** Further properties: the count of the constructor from connections *)

Section BulkCount.
Import AdjacencyList.









End BulkCount.


